(** * Backlink tree of vscode-markdown-notes

    A shallow embedding of [src/BacklinksTreeDataProvider.ts]: the grouping of
    a flat list of locations into one node per file ([locationListToTree]),
    the tree items built from them ([BacklinkItem]) and the query that the
    editor sends ([getChildren]).

    Conventions of the embedding.
    - A JavaScript string is a [string]; one character stands for one UTF-16
      code unit (code units below 256), and the relational operators on
      strings compare code unit by code unit, as [String.compare] does.
    - Line and column numbers are [nat]: [vscode.Position] rejects negative
      numbers when it is constructed.
    - An abrupt completion ([throw]) is a value of [Completion]; an
      asynchronous call is described by the completion with which its promise
      settles, and the order in which promises settle is given by the host. *)

From Stdlib Require Import Ascii String ZArith.
From stdpp Require Import base list strings sorting pretty.

Open Scope string_scope.
Open Scope list_scope.

(** ** JavaScript run time: completions, strings, arrays *)

Inductive Error :=
| TypeError (reading : string)  (* a property read on [undefined] *)
| HostError (reason : string).  (* a failure reported by the editor *)

Inductive Completion (A : Type) :=
| Normal (a : A)
| Throw (e : Error).
Arguments Normal {A} a.
Arguments Throw {A} e.

#[global] Instance Completion_ret : MRet Completion := fun A a => Normal a.
#[global] Instance Completion_bind : MBind Completion := fun A B k c =>
  match c with
  | Normal a => k a
  | Throw e => Throw e
  end.

(** [a < b] on two strings. *)
Definition string_lt (a b : string) : bool :=
  match String.compare a b with Lt => true | _ => false end.

(** [Array.prototype.sort(comparefn)]: the sort is stable, and with a
    consistent comparison function every stable sort returns the same array;
    insertion from the right is the executable form chosen here.  An element
    is placed before the first element that it does not exceed. *)
Fixpoint sort_insert {A} (comparefn : A -> A -> Z) (x : A) (l : list A) : list A :=
  match l with
  | [] => [x]
  | y :: l' =>
      if (comparefn x y <=? 0)%Z then x :: y :: l'
      else y :: sort_insert comparefn x l'
  end.

Fixpoint Array_sort {A} (comparefn : A -> A -> Z) (l : list A) : list A :=
  match l with
  | [] => []
  | x :: l' => sort_insert comparefn x (Array_sort comparefn l')
  end.

(** ** The editor's data types *)

Module vscode.
Record Position := mkPosition { line : nat; character : nat }.
Record Range := mkRange { start : Position; end_ : Position }.
Record Uri := mkUri { fsPath : string }.
Record Location := mkLocation { uri : Uri; range : Range }.
Record TextDocument := mkTextDocument { document_uri : Uri; getText : string }.
Record TextEditor := mkTextEditor { document : TextDocument }.
Inductive TreeItemCollapsibleState := None_ | Collapsed | Expanded.
End vscode.
Import vscode.

#[global] Instance Position_eq_dec : EqDecision Position.
Proof. solve_decision. Defined.
#[global] Instance Range_eq_dec : EqDecision Range.
Proof. solve_decision. Defined.
#[global] Instance Uri_eq_dec : EqDecision Uri.
Proof. solve_decision. Defined.
#[global] Instance Location_eq_dec : EqDecision Location.
Proof. solve_decision. Defined.

(** ** Node's [path.basename] (POSIX flavour)

    The scan runs from the end of the path: trailing separators are skipped,
    then characters are kept up to the next separator. *)
Module path.
Definition is_sep (c : ascii) : bool := Ascii.eqb c "/"%char.

Fixpoint skip_seps (l : list ascii) : list ascii :=
    match l with
    | c :: l' => if is_sep c then skip_seps l' else l
    | [] => []
    end.

Fixpoint until_sep (l : list ascii) : list ascii :=
    match l with
    | c :: l' => if is_sep c then [] else c :: until_sep l'
    | [] => []
    end.

Definition basename (p : string) : string :=
    string_of_list_ascii
      (rev (until_sep (skip_seps (rev (list_ascii_of_string p))))).
End path.

(** ** Grouping: [locationListToTree] *)

Record FileWithLocations := mkFWL {
  file : string;
  locations : list Location;
}.

(** The field [locations] of a [FileWithLocations], under a name that stays
    in reach where a tree item has a field [locations] of its own. *)
Definition FileWithLocations_locations : FileWithLocations -> list Location :=
  locations.

#[global] Instance FileWithLocations_eq_dec : EqDecision FileWithLocations.
Proof. solve_decision. Defined.

(** The object [m].  Its own properties are kept in creation order; a read
    of a name that is not an own property goes to [Object.prototype]. *)
Definition Obj := list (string * FileWithLocations).

Definition ObjectPrototype_names : list string :=
  [ "constructor"; "__defineGetter__"; "__defineSetter__"; "hasOwnProperty";
    "__lookupGetter__"; "__lookupSetter__"; "isPrototypeOf";
    "propertyIsEnumerable"; "toString"; "valueOf"; "__proto__";
    "toLocaleString" ].

Inductive Value :=
| Undefined
| Own (fwl : FileWithLocations)
| Inherited.   (* a function or object of [Object.prototype]: truthy, and
                  without a [locations] property *)

Fixpoint getOwn (m : Obj) (f : string) : option FileWithLocations :=
  match m with
  | [] => None
  | (k, v) :: m' => if String.eqb k f then Some v else getOwn m' f
  end.

(** [m[f]] *)
Definition get (m : Obj) (f : string) : Value :=
  match getOwn m f with
  | Some fwl => Own fwl
  | None => if bool_decide (f ∈ ObjectPrototype_names) then Inherited else Undefined
  end.

(** [m[f] = v]: an own property keeps its place, a new one goes last. *)
Fixpoint set (m : Obj) (f : string) (v : FileWithLocations) : Obj :=
  match m with
  | [] => [(f, v)]
  | (k, w) :: m' => if String.eqb k f then (k, v) :: m' else (k, w) :: set m' f v
  end.

Definition truthy (v : Value) : bool :=
  match v with Undefined => false | _ => true end.

(** The body of the callback of [locations.map] (lines 36 to 44). *)
Definition addLocation (m : Obj) (l : Location) : Completion Obj :=
  let f := path.basename (fsPath (uri l)) in
  let m1 := if negb (truthy (get m f))
            then set m f {| file := f; locations := [] |}
            else m in
  match get m1 f with
  | Own fwl => Normal (set m1 f {| file := file fwl; locations := locations fwl ++ [l] |})
  | Inherited | Undefined => Throw (TypeError "push")
  end.

Fixpoint addLocations (m : Obj) (ls : list Location) : Completion Obj :=
  match ls with
  | [] => Normal m
  | l :: ls' => m' ← addLocation m l; addLocations m' ls'
  end.

(** Own property keys that are array indices come first in [Object.values],
    in ascending numeric order; the other keys follow in creation order. *)
Definition digit (c : ascii) : option N :=
  let n := N_of_ascii c in
  if ((48 <=? n) && (n <=? 57))%N then Some (n - 48)%N else None.

Fixpoint digits (s : string) (acc : N) : option N :=
  match s with
  | EmptyString => Some acc
  | String c s' =>
      match digit c with
      | Some d => digits s' (10 * acc + d)%N
      | None => None
      end
  end.

Definition arrayIndex (k : string) : option N :=
  match k with
  | EmptyString => None
  | String c s' =>
      if Ascii.eqb c "0"%char
      then (if String.eqb s' "" then Some 0%N else None)
      else match digits k 0 with
           | Some n => if (n <? 4294967295)%N then Some n else None
           | None => None
           end
  end.

Definition indexOrder (a b : string * FileWithLocations) : Z :=
  match arrayIndex (fst a), arrayIndex (fst b) with
  | Some i, Some j => (Z.of_N i - Z.of_N j)%Z
  | _, _ => 0%Z
  end.

Definition isArrayIndex (kv : string * FileWithLocations) : Prop :=
  is_Some (arrayIndex kv.1).

Definition Object_values (m : Obj) : list FileWithLocations :=
  (Array_sort indexOrder (filter isArrayIndex m)
   ++ filter (fun kv => ~ isArrayIndex kv) m).*2.

(** [asc] of line 48, at the type of strings. *)
Definition asc (a b : string) : Z :=
  if string_lt a b then (-1)%Z
  else if string_lt b a then 1%Z
  else 0%Z.

(** The comparison function of lines 60 to 77. *)
Definition compareStart (locA locB : Location) : Z :=
  let a := start (range locA) in
  let b := start (range locB) in
  if (line a <? line b)%nat then (-1)%Z
  else if (line b <? line a)%nat then 1%Z
  else if (character a <? character b)%nat then (-1)%Z
  else if (character b <? character a)%nat then 1%Z
  else 0%Z.

Definition locationListToTree (locs : list Location) : Completion (list FileWithLocations) :=
  m ← addLocations [] locs;
  let arr := Object_values m in
  let arr := Array_sort (fun a b => asc (file a) (file b)) arr in
  Normal (map (fun fwl => {| file := file fwl;
                             locations := Array_sort compareStart (locations fwl) |}) arr).

(** ** Strings of the tree items *)

(** [str.split(/\r?\n/)]: a line ends at a line feed, and a carriage return
    directly before that line feed belongs to the separator.  The result has
    one element more than there are separators. *)
Fixpoint split_lines (s : string) : list string :=
  match s with
  | EmptyString => [""]
  | String c s' =>
      let keep := match split_lines s' with
                  | ln :: lns => String c ln :: lns
                  | [] => [String c ""]
                  end in
      if Ascii.eqb c "010"%char then "" :: split_lines s'
      else match s' with
           | String c' s'' =>
               if Ascii.eqb c "013"%char && Ascii.eqb c' "010"%char
               then "" :: split_lines s''
               else keep
           | EmptyString => keep
           end
  end.

(** [str.substr(start)], without a length. *)
Definition substr (str : string) (start : Z) : string :=
  let size := Z.of_nat (String.length str) in
  let intStart := if (start <? 0)%Z then Z.max (size + start) 0 else Z.min start size in
  String.substring (Z.to_nat intStart) (Z.to_nat (size - intStart)) str.

(** Truthiness of a value that is a string or [undefined]: only [undefined]
    and the empty string are falsy.  Hence [x || ''] is [default "" x]. *)
Definition isTruthy (s : option string) : bool :=
  match s with
  | Some (String _ _) => true
  | _ => false
  end.

(** [arr.join(sep)] *)
Fixpoint join (sep : string) (l : list string) : string :=
  match l with
  | [] => ""
  | [x] => x
  | x :: l' => x +:+ sep +:+ join sep l'
  end.

(** [arr.filter(Boolean)] *)
Definition filterBoolean (l : list (option string)) : list string :=
  omap (fun s => if isTruthy s then s else None) l.

(** ** [BacklinkItem] *)

Module BacklinkItem.

Record OpenOptions := mkOpenOptions { preview : bool; selection : Range }.

Record Command := mkCommand {
  command_ : string;
  arguments : Uri * OpenOptions;
  title : string;
}.

Record t := mk {
  label : string;
  collapsibleState : TreeItemCollapsibleState;
  locations : option (list Location);
  location : option Location;
  filename : string;
  command : option Command;
  tooltip : string;
  description : string;
  iconPath : string;
}.

(** [`${this.locations?.length} ${r}`] *)
Definition countText (locs : option (list Location)) : string :=
  let r := if bool_decide (length <$> locs = Some 1) then "Reference" else "References" in
  from_option (fun l => pretty (length l)) "undefined" locs +:+ " " +:+ r.

(** Lines 151 to 154: twelve characters back from the reference. *)
Definition previewStart (c : nat) : Z :=
  let s := (Z.of_nat c - 12)%Z in
  if (s <? 20)%Z then 0%Z else s.

(** The constructor. *)
Definition new (label : string) (collapsibleState : TreeItemCollapsibleState)
    (locs : option (list Location)) (loc : option Location)
    (filename : option string) (fileContents : option string) : Completion t :=
  let filename := default "" filename in
  cd ← match loc with
       | Some l =>
           let command :=
             {| command_ := "vscode.open";
                arguments := (uri l, {| preview := true; selection := range l |});
                title := "Open File" |} in
           let lines := split_lines (default "" fileContents) in
           let line := lines !! vscode.line (start (range l)) in
           let s := previewStart (character (start (range l))) in
           match line with
           | Some line => Normal (Some command, substr line s)
           | None => Throw (TypeError "substr")
           end
       | None =>
           match locs with
           | Some _ => Normal (None, countText locs)
           | None => Normal (None, "")
           end
       end;
  let lineText := (fun l => "line " +:+ pretty (vscode.line (start (range l)))) <$> loc in
  let tooltip := join ": " (filterBoolean [Some filename; lineText; Some cd.2]) in
  Normal {| label := label; collapsibleState := collapsibleState;
            locations := locs; location := loc; filename := filename;
            command := cd.1; tooltip := tooltip; description := cd.2;
            iconPath := countText locs |}.

Definition fromFileWithLocations (fwl : FileWithLocations) : Completion t :=
  let label := file fwl in
  let cs := Expanded in
  new label cs (Some (FileWithLocations_locations fwl)) None (Some (file fwl)) None.

End BacklinkItem.
(** ** Promises

    An asynchronous call is described by how the promise that it returns will
    settle: [Normal v] when it is fulfilled with [v], [Throw e] when it is
    rejected with [e].  The order in which pending promises settle belongs to
    the host; a schedule lists the indices of the promises in that order. *)

Inductive Promise (A : Type) :=
| Pending
| Fulfilled (a : A)
| Rejected (e : Error).
Arguments Pending {A}.
Arguments Fulfilled {A} a.
Arguments Rejected {A} e.

Definition settle {A} (c : Completion A) : Promise A :=
  match c with
  | Normal a => Fulfilled a
  | Throw e => Rejected e
  end.

(** Modelled from the spec: the enumeration [RefType] of [./Ref], which is not
    among the sources; the spec names its two reference kinds. *)
Inductive RefType := WikiLink | Hyperlink.

(** What the host can observe of a query, in the order in which it happens. *)
Inductive Event :=
| ShowInformationMessage (message : string)
| SearchBacklinksFor (filename : string) (refType : RefType)
| OpenTextDocument (u : Uri)
| Settled (i : nat)                              (* promise [i] of [Promise.all] settles *)
| LocationListToTree (locs : list Location).     (* the grouping is called *)

(** [Promise.all]: the values are stored by index; the first rejection
    rejects the whole, the last fulfilment fulfils it with all values, and
    nothing changes a promise that is settled. *)
Record AllState (A : Type) := mkAllState {
  values : list (option A);
  result : Promise (list A);
}.
Arguments mkAllState {A} values result.
Arguments values {A} a.
Arguments result {A} a.

Fixpoint allValues {A} (vs : list (option A)) : option (list A) :=
  match vs with
  | [] => Some []
  | Some v :: vs' => match allValues vs' with Some l => Some (v :: l) | None => None end
  | None :: _ => None
  end.

Definition all_start {A} (n : nat) : AllState A :=
  {| values := replicate n None;
     result := match n with 0 => Fulfilled [] | S _ => Pending end |}.

Definition all_deliver {A} (i : nat) (c : Completion A) (st : AllState A) : AllState A :=
  match result st with
  | Pending =>
      match c with
      | Throw e => {| values := values st; result := Rejected e |}
      | Normal a =>
          let vs := <[i := Some a]> (values st) in
          {| values := vs;
             result := match allValues vs with Some l => Fulfilled l | None => Pending end |}
      end
  | _ => st
  end.

(** A promise settles once: an index that the schedule repeats, or that
    names no promise, is passed over. *)
Fixpoint all_run {A} (ps : list (Completion A)) (sched seen : list nat)
    (st : AllState A) : list Event * AllState A :=
  match sched with
  | [] => ([], st)
  | i :: sched' =>
      match ps !! i with
      | Some c =>
          if bool_decide (i ∈ seen) then all_run ps sched' seen st
          else let r := all_run ps sched' (i :: seen) (all_deliver i c st) in
               (Settled i :: r.1, r.2)
      | None => all_run ps sched' seen st
      end
  end.

Definition Promise_all {A} (ps : list (Completion A)) (sched : list nat)
    : list Event * Promise (list A) :=
  let r := all_run ps sched [] (all_start (length ps)) in
  (r.1, result r.2).

(** [p.then(onFulfilled)] *)
Definition then_ {A B} (p : list Event * Promise A)
    (onFulfilled : A -> list Event * Completion B) : list Event * Promise B :=
  match p.2 with
  | Fulfilled a => let r := onFulfilled a in (p.1 ++ r.1, settle r.2)
  | Rejected e => (p.1, Rejected e)
  | Pending => (p.1, Pending)
  end.

(** ** The host and the query *)

Record Host := mkHost {
  activeTextEditor : option TextEditor;
  (* [NoteParser.searchBacklinksFor], of [./NoteParser] *)
  searchBacklinksFor : string -> RefType -> Completion (list Location);
  (* [vscode.workspace.openTextDocument] *)
  openTextDocument : Uri -> Completion TextDocument;
}.

Record BacklinksTreeDataProvider := mkProvider {
  workspaceRoot : option string;   (* [string | null] *)
}.

(** [BacklinkItem.fromLocation]: the promise that the call returns. *)
Definition fromLocation (host : Host) (location : Location) (filename : option string)
    : Completion BacklinkItem.t :=
  let lineNum := line (start (range location)) + 1 in
  let label := pretty lineNum +:+ ":" in
  let cs := None_ in
  file ← openTextDocument host (uri location);
  BacklinkItem.new label cs None (Some location) filename (Some (getText file)).

Fixpoint mapC {A B} (f : A -> Completion B) (l : list A) : Completion (list B) :=
  match l with
  | [] => Normal []
  | x :: l' => y ← f x; ys ← mapC f l'; Normal (y :: ys)
  end.

Definition getChildren (this : BacklinksTreeDataProvider) (host : Host)
    (sched : list nat) (element : option BacklinkItem.t)
    : list Event * Promise (list BacklinkItem.t) :=
  let f := (fun e => fsPath (document_uri (document e))) <$> activeTextEditor host in
  if negb (isTruthy f) then ([], Fulfilled [])
  else if negb (isTruthy (workspaceRoot this))
  then ([ShowInformationMessage "No refs in empty workspace"], Fulfilled [])
  else
    let activeFilename := path.basename (default "" f) in
    match element with
    | None =>
        let calls := [ SearchBacklinksFor activeFilename WikiLink;
                       SearchBacklinksFor activeFilename Hyperlink ] in
        let all := Promise_all [ searchBacklinksFor host activeFilename WikiLink;
                                 searchBacklinksFor host activeFilename Hyperlink ]
                               sched in
        then_ (calls ++ all.1, all.2) (fun arr =>
          match arr with
          | arr0 :: arr1 :: _ =>
              let locations := arr0 ++ arr1 in
              ([LocationListToTree locations],
               filesWithLocations ← locationListToTree locations;
               mapC BacklinkItem.fromFileWithLocations filesWithLocations)
          | _ => ([], Throw (TypeError "concat"))
          end)
    | Some element =>
        match BacklinkItem.locations element with
        | Some locs =>
            let calls := (fun l => OpenTextDocument (uri l)) <$> locs in
            let all := Promise_all
                         ((fun l => fromLocation host l (Some (BacklinkItem.filename element)))
                            <$> locs) sched in
            (calls ++ all.1, all.2)
        | None => ([], Fulfilled [])
        end
    end.
(** * Vocabulary of the statements *)

(** What a comparison function says of two elements that are in order. *)
Definition ordered {A} (comparefn : A -> A -> Z) (x y : A) : Prop :=
  (comparefn x y <= 0)%Z.

(** Ordinal order on strings, strict and large: the lexicographic order on
    character codes, with a proper prefix before the longer string. *)
Definition str_lt (a b : string) : Prop := String.compare a b = Lt.
Definition str_le (a b : string) : Prop := String.compare a b <> Gt.

(** The file that a location lies in, as [locationListToTree] names it. *)
Definition sourceFile (l : Location) : string := path.basename (fsPath (uri l)).

(** The locations that [m] holds under a name. *)
Definition groupOf (m : Obj) (k : string) : list Location :=
  from_option locations [] (getOwn m k).

(** What holds of [m] all along the loop. *)
Record consistent (m : Obj) : Prop := {
  consistent_NoDup : NoDup m.*1;
  consistent_file : forall k v, getOwn m k = Some v -> file v = k;
  consistent_names : forall k, k ∈ ObjectPrototype_names -> getOwn m k = None;
}.

(** The node of file [k] over the locations [ls]. *)
Definition groupFor (ls : list Location) (k : string) : FileWithLocations :=
  {| file := k;
     locations := Array_sort compareStart (filter (fun l => sourceFile l = k) ls) |}.

Definition safeName (l : Location) : Prop := sourceFile l ∉ ObjectPrototype_names.

#[global] Instance safeName_dec l : Decision (safeName l).
Proof. unfold safeName. apply _. Defined.


(** The order on start positions: line first, character second. *)
Definition pos_le (a b : Position) : Prop :=
  line a < line b \/ (line a = line b /\ character a <= character b).

Definition start_le (x y : Location) : Prop :=
  pos_le (start (range x)) (start (range y)).

(** ** Sample inputs *)

Definition hit (p : string) (l c e : nat) : Location :=
  mkLocation (mkUri p) (mkRange (mkPosition l c) (mkPosition l e)).

Definition sampleHits : list Location :=
  [ hit "/notes/b.md" 3 1 6; hit "/notes/a.md" 2 2 7; hit "/archive/b.md" 1 7 12;
    hit "/notes/a.md" 2 2 7; hit "/notes/b.md" 1 4 9 ].

Definition sampleTree : list FileWithLocations :=
  [ {| file := "a.md";
       locations := [ hit "/notes/a.md" 2 2 7; hit "/notes/a.md" 2 2 7 ] |};
    {| file := "b.md";
       locations := [ hit "/notes/b.md" 1 4 9; hit "/archive/b.md" 1 7 12;
                      hit "/notes/b.md" 3 1 6 ] |} ].

(** Hits of one file that start at the same position are the same hit. *)
Definition tiesIdentical (ls : list Location) : Prop :=
  forall h h', h ∈ ls -> h' ∈ ls -> sourceFile h = sourceFile h' ->
    start (range h) = start (range h') -> h = h'.


(** What holds of the state of [Promise.all] once the promises with an index
    in [seen] have settled. *)
Definition all_inv {A} (ps : list (Completion A)) (seen : list nat)
    (st : AllState A) : Prop :=
  (forall i, i ∈ seen -> i < length ps) /\
  match result st with
  | Pending =>
      length (values st) = length ps /\
      allValues (values st) = None /\
      (forall i, i ∈ seen ->
         exists a, ps !! i = Some (Normal a) /\ values st !! i = Some (Some a)) /\
      (forall i a, values st !! i = Some (Some a) -> i ∈ seen)
  | Fulfilled vs =>
      Forall2 (fun c v => c = Normal v) ps vs /\
      (forall i, i < length ps -> i ∈ seen)
  | Rejected e => exists i, i ∈ seen /\ ps !! i = Some (Throw e)
  end.

Definition isSettled (ev : Event) : Prop := exists i, ev = Settled i.

(** A line feed does not occur in a string. *)
Definition oneLine (s : string) : Prop := "010"%char ∉ list_ascii_of_string s.

(** Sample host: the note [/notes/b.md] is open, [a.md] links to it twice. *)
Definition sampleDocument : TextDocument :=
  mkTextDocument (mkUri "/notes/a.md") "see [[b]] and [c](b.md)".

Definition sampleHost : Host :=
  {| activeTextEditor :=
       Some (mkTextEditor (mkTextDocument (mkUri "/notes/b.md") "root note"));
     searchBacklinksFor := fun name refType =>
       match refType with
       | WikiLink => Normal [hit "/notes/a.md" 0 4 9]
       | Hyperlink => Normal [hit "/notes/a.md" 0 14 23]
       end;
     openTextDocument := fun _ => Normal sampleDocument |}.

Definition idleHost : Host :=
  {| activeTextEditor := None;
     searchBacklinksFor := searchBacklinksFor sampleHost;
     openTextDocument := openTextDocument sampleHost |}.

(** The item of the hit at column 4 of the sample document. *)
Definition sampleLeaf : BacklinkItem.t :=
  {| BacklinkItem.label := "1:";
     BacklinkItem.collapsibleState := None_;
     BacklinkItem.locations := None;
     BacklinkItem.location := Some (hit "/notes/a.md" 0 4 9);
     BacklinkItem.filename := "a.md";
     BacklinkItem.command :=
       Some {| BacklinkItem.command_ := "vscode.open";
               BacklinkItem.arguments :=
                 (mkUri "/notes/a.md",
                  {| BacklinkItem.preview := true;
                     BacklinkItem.selection :=
                       mkRange (mkPosition 0 4) (mkPosition 0 9) |});
               BacklinkItem.title := "Open File" |};
     BacklinkItem.tooltip := "a.md: line 0: see [[b]] and [c](b.md)";
     BacklinkItem.description := "see [[b]] and [c](b.md)";
     BacklinkItem.iconPath := "undefined References" |}.

(** The answer to the sample query for the top level. *)
Definition sampleItems : list BacklinkItem.t :=
  [ {| BacklinkItem.label := "a.md";
       BacklinkItem.collapsibleState := Expanded;
       BacklinkItem.locations :=
         Some [hit "/notes/a.md" 0 4 9; hit "/notes/a.md" 0 14 23];
       BacklinkItem.location := None;
       BacklinkItem.filename := "a.md";
       BacklinkItem.command := None;
       BacklinkItem.tooltip := "a.md: 2 References";
       BacklinkItem.description := "2 References";
       BacklinkItem.iconPath := "2 References" |} ].

(** A host on which no document can be opened. *)
Definition lockedHost : Host :=
  {| activeTextEditor := activeTextEditor sampleHost;
     searchBacklinksFor := searchBacklinksFor sampleHost;
     openTextDocument := fun _ => Throw (HostError "cannot open") |}.

Definition isNotice (ev : Event) : Prop :=
  ev = ShowInformationMessage "No refs in empty workspace".

(** A file node with the single hit of [sampleLeaf]. *)
Definition sampleNode : BacklinkItem.t :=
  {| BacklinkItem.label := "a.md";
     BacklinkItem.collapsibleState := Expanded;
     BacklinkItem.locations := Some [hit "/notes/a.md" 0 4 9];
     BacklinkItem.location := None;
     BacklinkItem.filename := "a.md";
     BacklinkItem.command := None;
     BacklinkItem.tooltip := "a.md: 1 Reference";
     BacklinkItem.description := "1 Reference";
     BacklinkItem.iconPath := "1 Reference" |}.

(** ** Texts as lines and line ends

    A text written as its first line followed by pairs of a line end and the
    line after it. *)
Definition LF : string := String "010" "".
Definition CRLF : string := String "013" (String "010" "").

Fixpoint unsplit (first : string) (rest : list (string * string)) : string :=
  match rest with
  | [] => first
  | (sep, ln) :: rest' => first +:+ sep +:+ unsplit ln rest'
  end.

Definition endsWithCR (s : string) : Prop :=
  last (list_ascii_of_string s) = Some "013"%char.

(** Lines hold no line feed; a line end is a line feed, alone or after a
    carriage return, and a line before a lone line feed does not end in a
    carriage return (that carriage return would belong to the line end). *)
Fixpoint separated (first : string) (rest : list (string * string)) : Prop :=
  oneLine first /\
  match rest with
  | [] => True
  | (sep, ln) :: rest' =>
      ((sep = LF /\ ~ endsWithCR first) \/ sep = CRLF) /\ separated ln rest'
  end.

(** A note of three lines, the second ended by a line feed alone. *)
Definition sampleText : string :=
  unsplit "# Notes"
    [ (CRLF, "A long line of text that leads up to a [[b]] link");
      (LF, "the end") ].
(** * Properties *)

(** ** The order on strings *)

Lemma ascii_compare_N (x y : ascii) :
  Ascii.compare x y = N.compare (N_of_ascii x) (N_of_ascii y).
Proof. reflexivity. Qed.

Lemma string_compare_refl (a : string) : String.compare a a = Eq.
Proof.
  induction a as [|x a IH]; simpl; [done|].
  by rewrite ascii_compare_N, N.compare_refl.
Qed.

Lemma string_compare_lt_trans (a b c : string) :
  String.compare a b = Lt -> String.compare b c = Lt -> String.compare a c = Lt.
Proof.
  revert b c. induction a as [|x a IH]; intros [|y b] [|z c]; simpl; try done.
  rewrite !ascii_compare_N.
  destruct (N.compare_spec (N_of_ascii x) (N_of_ascii y)) as [Hxy|Hxy|Hxy];
    destruct (N.compare_spec (N_of_ascii y) (N_of_ascii z)) as [Hyz|Hyz|Hyz];
    try done; intros Hab Hbc.
  - rewrite Hxy, Hyz, N.compare_refl. eauto.
  - by rewrite Hxy, (proj2 (N.compare_lt_iff _ _) Hyz).
  - by rewrite <- Hyz, (proj2 (N.compare_lt_iff _ _) Hxy).
  - by rewrite (proj2 (N.compare_lt_iff _ _) (N.lt_trans _ _ _ Hxy Hyz)).
Qed.

Lemma string_lt_irrefl (a : string) : string_lt a a = false.
Proof. unfold string_lt. by rewrite string_compare_refl. Qed.

Lemma string_lt_trans (a b c : string) :
  string_lt a b = true -> string_lt b c = true -> string_lt a c = true.
Proof.
  unfold string_lt. intros Hab Hbc.
  assert (String.compare a b = Lt) as H1 by (by destruct (String.compare a b)).
  assert (String.compare b c = Lt) as H2 by (by destruct (String.compare b c)).
  by rewrite (string_compare_lt_trans a b c H1 H2).
Qed.

Lemma string_lt_asym (a b : string) :
  string_lt a b = true -> string_lt b a = false.
Proof.
  unfold string_lt. rewrite (String.compare_antisym b a).
  by destruct (String.compare a b).
Qed.

Lemma string_lt_connex (a b : string) :
  string_lt a b = false -> string_lt b a = false -> a = b.
Proof.
  unfold string_lt. rewrite (String.compare_antisym b a).
  destruct (String.compare a b) eqn:E; simpl; try done.
  intros _ _. by apply String.compare_eq_iff.
Qed.

Lemma str_lt_iff (a b : string) : str_lt a b <-> string_lt a b = true.
Proof. unfold str_lt, string_lt. destruct (String.compare a b); split; done. Qed.

Lemma str_le_iff (a b : string) : str_le a b <-> string_lt b a = false.
Proof.
  unfold str_le, string_lt. rewrite (String.compare_antisym a b).
  destruct (String.compare b a); simpl; split; done.
Qed.

#[global] Instance str_lt_trans : Transitive str_lt.
Proof. intros a b c. rewrite !str_lt_iff. apply string_lt_trans. Qed.

#[global] Instance str_lt_antisym : AntiSymm (=) str_lt.
Proof.
  intros a b Hab Hba. rewrite str_lt_iff in Hab, Hba.
  apply string_lt_asym in Hab. congruence.
Qed.

#[global] Instance str_le_trans : Transitive str_le.
Proof.
  intros a b c. rewrite !str_le_iff. intros Hab Hbc.
  destruct (string_lt c a) eqn:Hca; [|done].
  destruct (string_lt b c) eqn:E.
  - by rewrite (string_lt_trans b c a E Hca) in Hab.
  - rewrite (string_lt_connex _ _ E Hbc) in Hab. congruence.
Qed.

Lemma str_lt_le (a b : string) : str_lt a b -> str_le a b.
Proof. rewrite str_lt_iff, str_le_iff. apply string_lt_asym. Qed.

Lemma str_le_lt (a b : string) : str_le a b -> a <> b -> str_lt a b.
Proof.
  rewrite str_le_iff, str_lt_iff. intros Hle Hne.
  destruct (string_lt a b) eqn:E; [done|].
  by destruct Hne; apply string_lt_connex.
Qed.

Lemma asc_le (a b : string) : (asc a b <= 0)%Z <-> str_le a b.
Proof.
  rewrite str_le_iff. unfold asc. destruct (string_lt a b) eqn:E.
  - apply string_lt_asym in E. rewrite E. split; [done|lia].
  - destruct (string_lt b a); split; (done || lia).
Qed.

(** ** [Array.prototype.sort] *)

Section Array_sort.
Context {A : Type} (comparefn : A -> A -> Z).

Lemma sort_insert_Permutation x l : sort_insert comparefn x l ≡ₚ x :: l.
Proof.
    induction l as [|y l IH]; simpl; [done|].
    destruct (comparefn x y <=? 0)%Z; [done|].
    by rewrite IH, Permutation_swap.
Qed.

Lemma Array_sort_Permutation l : Array_sort comparefn l ≡ₚ l.
Proof.
    induction l as [|x l IH]; simpl; [done|].
    by rewrite sort_insert_Permutation, IH.
Qed.

  (** The comparison function is consistent. *)
Hypothesis connex : forall x y, ordered comparefn x y \/ ordered comparefn y x.
Hypothesis trans :
    forall x y z, ordered comparefn x y -> ordered comparefn y z -> ordered comparefn x z.

Lemma sort_insert_sorted x l :
    StronglySorted (ordered comparefn) l -> StronglySorted (ordered comparefn) (sort_insert comparefn x l).
Proof.
    induction 1 as [|y l Hl IH Hy]; simpl.
    - repeat constructor.
    - destruct (Z.leb_spec (comparefn x y) 0) as [Hxy|Hxy].
      + constructor; [by constructor|].
        constructor; [done|].
        eapply Forall_impl; [exact Hy|]. intros z Hz. by eapply trans.
      + constructor; [done|].
        rewrite sort_insert_Permutation. constructor; [|done].
        destruct (connex x y) as [H|H]; [unfold ordered in H; lia|done].
Qed.

Lemma Array_sort_sorted l : StronglySorted (ordered comparefn) (Array_sort comparefn l).
Proof.
    induction l as [|x l IH]; simpl; [constructor|].
    by apply sort_insert_sorted.
Qed.
End Array_sort.

(** Elements that the comparison function does not tell apart keep their
    places relative to each other. *)
Lemma Array_sort_stable {A} (comparefn : A -> A -> Z) (P : A -> Prop)
    `{!forall x, Decision (P x)} (l : list A) :
  (forall x y, P x -> P y -> (comparefn x y <= 0)%Z) ->
  filter P (Array_sort comparefn l) = filter P l.
Proof.
  intros Hties.
  assert (forall x l', filter P (sort_insert comparefn x l') = filter P (x :: l')) as Hins.
  { intros x l'. induction l' as [|y l' IH]; simpl; [done|].
    destruct (Z.leb_spec (comparefn x y) 0) as [Hxy|Hxy]; [done|].
    rewrite (filter_cons _ y), IH, !filter_cons.
    destruct (decide (P y)) as [Hy|Hy]; [|done].
    destruct (decide (P x)) as [Hx|Hx]; [|done].
    specialize (Hties x y Hx Hy). lia. }
  induction l as [|x l IH]; simpl; [done|].
  by rewrite Hins, !filter_cons, IH.
Qed.

(** ** The object [m] *)

Lemma getOwn_set_eq (m : Obj) f v : getOwn (set m f v) f = Some v.
Proof.
  induction m as [|[k w] m IH]; simpl.
  - by rewrite String.eqb_refl.
  - destruct (String.eqb_spec k f) as [->|Hne]; simpl.
    + by rewrite String.eqb_refl.
    + by rewrite (proj2 (String.eqb_neq k f) Hne).
Qed.

Lemma getOwn_set_ne (m : Obj) f v k : f <> k -> getOwn (set m f v) k = getOwn m k.
Proof.
  intros Hfk. induction m as [|[k' w] m IH]; simpl.
  - by rewrite (proj2 (String.eqb_neq f k) Hfk).
  - destruct (String.eqb_spec k' f) as [->|Hne]; simpl.
    + by rewrite (proj2 (String.eqb_neq f k) Hfk).
    + by rewrite IH.
Qed.

Lemma getOwn_elem_of (m : Obj) k v : getOwn m k = Some v -> (k, v) ∈ m.
Proof.
  induction m as [|[k' w] m IH]; simpl; [done|].
  destruct (String.eqb_spec k' k) as [->|Hne].
  - intros [= ->]. by left.
  - intros H. right. by apply IH.
Qed.

Lemma getOwn_None (m : Obj) k : getOwn m k = None <-> k ∉ m.*1.
Proof.
  induction m as [|[k' w] m IH]; simpl.
  - split; [intros _; apply not_elem_of_nil|done].
  - rewrite not_elem_of_cons. destruct (String.eqb_spec k' k) as [->|Hne].
    + split; [done|]. by intros [? _].
    + rewrite IH. split; [by intros ?; split; [congruence|]|by intros [_ ?]].
Qed.

Lemma elem_of_getOwn (m : Obj) k v : NoDup m.*1 -> (k, v) ∈ m -> getOwn m k = Some v.
Proof.
  induction m as [|[k' w] m IH]; simpl; intros Hnd Hin.
  - by apply elem_of_nil in Hin.
  - apply NoDup_cons in Hnd as [Hk' Hnd].
    apply elem_of_cons in Hin as [[= -> ->]|Hin].
    + by rewrite String.eqb_refl.
    + destruct (String.eqb_spec k' k) as [->|Hne]; [|by apply IH].
      destruct Hk'. apply list_elem_of_fmap. by exists (k, v).
Qed.

Lemma set_keys (m : Obj) f v :
  (set m f v).*1 = if getOwn m f is Some _ then m.*1 else m.*1 ++ [f].
Proof.
  induction m as [|[k w] m IH]; [done|]. cbn [set getOwn].
  destruct (String.eqb_spec k f) as [->|Hne]; rewrite ?fmap_cons; [done|].
  rewrite IH. by destruct (getOwn m f).
Qed.

Lemma consistent_nil : consistent [].
Proof. split; [constructor|done..]. Qed.

Lemma addLocation_inherited (m : Obj) l :
  consistent m -> sourceFile l ∈ ObjectPrototype_names ->
  addLocation m l = Throw (TypeError "push").
Proof.
  intros Hm Hin. unfold addLocation. fold (sourceFile l).
  unfold get. rewrite (consistent_names m Hm _ Hin).
  rewrite (bool_decide_eq_true_2 _ Hin). cbn [negb truthy].
  by rewrite (consistent_names m Hm _ Hin).
Qed.

Lemma addLocation_Normal (m : Obj) l :
  consistent m -> sourceFile l ∉ ObjectPrototype_names ->
  exists m', addLocation m l = Normal m' /\ consistent m' /\
    (forall k, groupOf m' k =
       groupOf m k ++ (if decide (k = sourceFile l) then [l] else [])) /\
    (forall k, is_Some (getOwn m' k) <-> is_Some (getOwn m k) \/ k = sourceFile l).
Proof.
  intros Hm Hnot. unfold addLocation. fold (sourceFile l).
  set (f := sourceFile l) in *.
  assert (forall m0 v, consistent m0 -> file v = f -> consistent (set m0 f v)) as Hset.
  { intros m0 v [Hnd Hfile Hnames] Hv. split.
    - rewrite set_keys. destruct (getOwn m0 f) eqn:E; [done|].
      apply NoDup_app. split_and!; [done| |apply NoDup_singleton].
      intros k Hk ->%list_elem_of_singleton. by apply getOwn_None in E.
    - intros k w. destruct (decide (f = k)) as [<-|Hne].
      + rewrite getOwn_set_eq. by intros [= <-].
      + rewrite getOwn_set_ne by done. apply Hfile.
    - intros k Hk. rewrite getOwn_set_ne; [by apply Hnames|].
      intros ->. by destruct Hnot. }
  unfold get. destruct (getOwn m f) as [fwl|] eqn:E; cbn [negb truthy].
  - rewrite E. eexists. split; [done|]. split_and!.
    + apply Hset; [done|]. simpl. by apply (consistent_file m Hm).
    + intros k. unfold groupOf. destruct (decide (k = f)) as [->|Hne].
      * by rewrite getOwn_set_eq, E.
      * rewrite getOwn_set_ne by done. by rewrite app_nil_r.
    + intros k. destruct (decide (k = f)) as [->|Hne].
      * rewrite getOwn_set_eq. split; [by right|by eexists].
      * rewrite getOwn_set_ne by done. split; [by left|by intros [?|?]].
  - rewrite (bool_decide_eq_false_2 _ Hnot). cbn [negb truthy].
    rewrite getOwn_set_eq. cbn [file locations]. eexists. split; [done|]. split_and!.
    + apply Hset; [|done]. by apply Hset.
    + intros k. unfold groupOf. destruct (decide (k = f)) as [->|Hne].
      * by rewrite getOwn_set_eq, E.
      * rewrite !getOwn_set_ne by done. by rewrite app_nil_r.
    + intros k. destruct (decide (k = f)) as [->|Hne].
      * rewrite getOwn_set_eq. split; [by right|by eexists].
      * rewrite !getOwn_set_ne by done. split; [by left|by intros [?|?]].
Qed.

Lemma addLocations_Normal (ls : list Location) (m : Obj) :
  consistent m -> Forall (fun l => sourceFile l ∉ ObjectPrototype_names) ls ->
  exists m', addLocations m ls = Normal m' /\ consistent m' /\
    (forall k, groupOf m' k =
       groupOf m k ++ filter (fun l => sourceFile l = k) ls) /\
    (forall k, is_Some (getOwn m' k) <->
       is_Some (getOwn m k) \/ exists l, l ∈ ls /\ sourceFile l = k).
Proof.
  revert m. induction ls as [|l ls IH]; intros m Hm Hls; simpl.
  - exists m. split_and!; [done..| |].
    + intros k. by rewrite filter_nil, app_nil_r.
    + intros k. split; [by left|]. intros [?|(l & Hl & _)]; [done|].
      by apply elem_of_nil in Hl.
  - apply Forall_cons in Hls as [Hl Hls].
    destruct (addLocation_Normal m l Hm Hl) as (m1 & -> & Hm1 & Hg1 & Hk1).
    destruct (IH m1 Hm1 Hls) as (m' & Hrun & Hm' & Hg & Hk).
    exists m'. split_and!; [done..| |].
    + intros k. rewrite Hg, Hg1, filter_cons.
      destruct (decide (k = sourceFile l)) as [->|Hne].
      * rewrite decide_True by done. by rewrite <- app_assoc.
      * rewrite decide_False by done. by rewrite app_nil_r.
    + intros k. rewrite Hk, Hk1. split.
      * intros [[?| ->]|(l' & Hl' & <-)]; [by left|right..].
        -- exists l. split; [by left|done].
        -- exists l'. split; [by right|done].
      * intros [?|(l' & [->|Hl']%elem_of_cons & <-)]; [by left; left|by left; right|].
        right. by exists l'.
Qed.

Lemma addLocations_Throw (ls : list Location) (m : Obj) :
  consistent m -> Exists (fun l => sourceFile l ∈ ObjectPrototype_names) ls ->
  addLocations m ls = Throw (TypeError "push").
Proof.
  revert m. induction ls as [|l ls IH]; intros m Hm Hex; simpl.
  - by apply Exists_nil in Hex.
  - destruct (decide (sourceFile l ∈ ObjectPrototype_names)) as [Hl|Hl].
    + by rewrite addLocation_inherited.
    + destruct (addLocation_Normal m l Hm Hl) as (m1 & -> & Hm1 & _).
      apply Exists_cons in Hex as [?|Hex]; [done|]. by apply IH.
Qed.

Lemma Object_values_Permutation (m : Obj) : Object_values m ≡ₚ m.*2.
Proof.
  unfold Object_values.
  by rewrite Array_sort_Permutation, filter_app_complement.
Qed.

(** ** The tree in closed form *)

Lemma StronglySorted_str_le_lt (ks : list string) :
  StronglySorted str_le ks -> NoDup ks -> StronglySorted str_lt ks.
Proof.
  induction 1 as [|k ks Hks IH Hk]; intros Hnd; [constructor|].
  apply NoDup_cons in Hnd as [Hnotin Hnd].
  constructor; [by apply IH|].
  apply Forall_forall. intros k' Hk'.
  apply str_le_lt; [by eapply Forall_forall in Hk|].
  by intros ->.
Qed.

Lemma ordered_asc_connex (a b : FileWithLocations) :
  ordered (fun a b => asc (file a) (file b)) a b \/
  ordered (fun a b => asc (file a) (file b)) b a.
Proof.
  unfold ordered. rewrite !asc_le, !str_le_iff.
  destruct (string_lt a.(file) b.(file)) eqn:E; [|by right].
  left. by apply string_lt_asym.
Qed.

Lemma ordered_asc_trans (a b c : FileWithLocations) :
  ordered (fun a b => asc (file a) (file b)) a b ->
  ordered (fun a b => asc (file a) (file b)) b c ->
  ordered (fun a b => asc (file a) (file b)) a c.
Proof. unfold ordered. rewrite !asc_le. apply str_le_trans. Qed.

Lemma locationListToTree_Normal (ls : list Location) :
  Forall safeName ls ->
  exists ks, locationListToTree ls = Normal (groupFor ls <$> ks) /\
    StronglySorted str_lt ks /\
    (forall k, k ∈ ks <-> exists l, l ∈ ls /\ sourceFile l = k).
Proof.
  intros Hls.
  destruct (addLocations_Normal ls [] consistent_nil Hls)
    as (m & Hrun & Hm & Hg & Hk).
  unfold locationListToTree. rewrite Hrun. cbn [mbind Completion_bind].
  set (arr := Array_sort _ (Object_values m)).
  assert (arr ≡ₚ m.*2) as Harr.
  { unfold arr. by rewrite Array_sort_Permutation, Object_values_Permutation. }
  assert (forall fwl, fwl ∈ arr -> getOwn m (file fwl) = Some fwl) as Hown.
  { intros fwl Hin. rewrite Harr in Hin.
    apply list_elem_of_fmap in Hin as ([k v] & -> & Hin). simpl.
    pose proof (elem_of_getOwn m k v (consistent_NoDup m Hm) Hin) as Hkv.
    by rewrite (consistent_file m Hm k v Hkv). }
  assert (file <$> arr ≡ₚ m.*1) as Hkeys.
  { rewrite Harr. rewrite <- list_fmap_compose.
    erewrite list_fmap_ext; [done|]. intros i [k v] Hi. simpl.
    apply (consistent_file m Hm).
    apply elem_of_getOwn; [apply Hm|]. by eapply list_elem_of_lookup_2. }
  exists (file <$> arr). split_and!.
  - f_equal. rewrite <- list_fmap_compose.
    apply list_fmap_ext. intros i fwl Hi. simpl. unfold groupFor. f_equal.
    apply list_elem_of_lookup_2, Hown in Hi.
    specialize (Hg (file fwl)). unfold groupOf in Hg.
    rewrite Hi in Hg. simpl in Hg. by rewrite Hg.
  - apply StronglySorted_str_le_lt.
    + apply (StronglySorted_fmap _ (ordered (fun a b => asc (file a) (file b)))).
      * intros a b. apply asc_le.
      * apply Array_sort_sorted; [apply ordered_asc_connex|apply ordered_asc_trans].
    + rewrite Hkeys. apply Hm.
  - intros k. rewrite Hkeys. split.
    + intros ([k' v] & -> & Hin)%list_elem_of_fmap. simpl.
      apply (elem_of_getOwn m k' v (consistent_NoDup m Hm)) in Hin.
      destruct (proj1 (Hk k')) as [[? [=]]|?]; [by eexists|done].
    + intros Hex. destruct (proj2 (Hk k)) as [v Hv]; [by right|].
      apply list_elem_of_fmap. exists (k, v). split; [done|].
      by apply getOwn_elem_of.
Qed.

Lemma locationListToTree_Throw (ls : list Location) :
  Exists (fun l => ~ safeName l) ls ->
  locationListToTree ls = Throw (TypeError "push").
Proof.
  intros Hex. unfold locationListToTree.
  rewrite (addLocations_Throw ls []); [done|apply consistent_nil|].
  eapply Exists_impl; [exact Hex|]. intros l Hl. simpl in Hl.
  unfold safeName in Hl. by apply dec_stable.
Qed.

(** The call returns exactly when no file name is the name of a member of
    [Object.prototype]; otherwise the read of [locations] on that member
    gives [undefined] and [push] throws. *)
Lemma locationListToTree_returns (ls : list Location) :
  (exists t, locationListToTree ls = Normal t) <-> Forall safeName ls.
Proof.
  split.
  - intros [t Ht]. destruct (decide (Forall safeName ls)) as [|Hno]; [done|].
    apply not_Forall_Exists in Hno; [|apply _].
    by rewrite locationListToTree_Throw in Ht.
  - intros Hls. destruct (locationListToTree_Normal ls Hls) as (ks & -> & _).
    by eexists.
Qed.

(** A note whose file is called [constructor]: [m["constructor"]] is the
    function [Object], which has no [locations]. *)
Example locationListToTree_inherited_name :
  locationListToTree [hit "/notes/a.md" 0 0 5; hit "/notes/constructor" 0 0 5] =
    Throw (TypeError "push").
Proof. reflexivity. Qed.

Lemma locationListToTree_inv (ls : list Location) t :
  locationListToTree ls = Normal t ->
  Forall safeName ls /\
  exists ks, t = groupFor ls <$> ks /\ StronglySorted str_lt ks /\
    (forall k, k ∈ ks <-> exists l, l ∈ ls /\ sourceFile l = k).
Proof.
  intros Ht. assert (Forall safeName ls) as Hls.
  { apply locationListToTree_returns. by exists t. }
  split; [done|].
  destruct (locationListToTree_Normal ls Hls) as (ks & Hks & ?).
  exists ks. split; [congruence|done].
Qed.

Lemma StronglySorted_str_lt_NoDup (ks : list string) :
  StronglySorted str_lt ks -> NoDup ks.
Proof.
  induction 1 as [|k ks Hks IH Hk]; constructor; [|done].
  intros Hin. eapply Forall_forall in Hk; [|exact Hin].
  apply str_lt_iff in Hk. by rewrite string_lt_irrefl in Hk.
Qed.

(** ** The order on start positions *)

Lemma compareStart_le (x y : Location) : ordered compareStart x y <-> start_le x y.
Proof.
  unfold ordered, compareStart, start_le, pos_le.
  destruct (Nat.ltb_spec (line (start (range x))) (line (start (range y))));
    [split; [by left|lia]|].
  destruct (Nat.ltb_spec (line (start (range y))) (line (start (range x))));
    [split; lia|].
  destruct (Nat.ltb_spec (character (start (range x))) (character (start (range y))));
    [split; lia|].
  destruct (Nat.ltb_spec (character (start (range y))) (character (start (range x))));
    split; lia.
Qed.

Lemma ordered_compareStart_connex (x y : Location) :
  ordered compareStart x y \/ ordered compareStart y x.
Proof. rewrite !compareStart_le. unfold start_le, pos_le. lia. Qed.

Lemma ordered_compareStart_trans (x y z : Location) :
  ordered compareStart x y -> ordered compareStart y z -> ordered compareStart x z.
Proof. rewrite !compareStart_le. unfold start_le, pos_le. lia. Qed.

Lemma start_le_antisym (x y : Location) :
  start_le x y -> start_le y x -> start (range x) = start (range y).
Proof.
  unfold start_le, pos_le.
  destruct (start (range x)) as [l1 c1], (start (range y)) as [l2 c2]; simpl.
  intros ? ?. f_equal; lia.
Qed.

Lemma groupFor_sorted (ls : list Location) k :
  StronglySorted start_le (locations (groupFor ls k)).
Proof.
  simpl. rewrite <- (list_fmap_id (Array_sort _ _)).
  apply (StronglySorted_fmap _ (ordered compareStart)).
  - intros x y. apply compareStart_le.
  - apply Array_sort_sorted;
      [apply ordered_compareStart_connex|apply ordered_compareStart_trans].
Qed.

Lemma groupFor_Permutation (ls : list Location) k :
  locations (groupFor ls k) ≡ₚ filter (fun l => sourceFile l = k) ls.
Proof. apply Array_sort_Permutation. Qed.

Lemma groupFor_sourceFile (ls : list Location) k :
  Forall (fun h => sourceFile h = k) (locations (groupFor ls k)).
Proof.
  apply Forall_forall. intros h Hh. rewrite groupFor_Permutation in Hh.
  by apply list_elem_of_filter in Hh as [? _].
Qed.

Lemma concat_groups (ls : list Location) (ks : list string) :
  NoDup ks ->
  concat (locations <$> (groupFor ls <$> ks)) ≡ₚ filter (fun l => sourceFile l ∈ ks) ls.
Proof.
  induction 1 as [|k ks Hk Hnd IH]; simpl.
  - induction ls as [|l ls IHls]; [done|].
    rewrite filter_cons, decide_False; [done|apply not_elem_of_nil].
  - rewrite IH, Array_sort_Permutation. clear IH.
    induction ls as [|l ls IHls]; [done|].
    rewrite !filter_cons.
    destruct (decide (sourceFile l = k)) as [->|Hne].
    + rewrite decide_False by done.
      rewrite decide_True by (by left). simpl. by rewrite IHls.
    + destruct (decide (sourceFile l ∈ ks)) as [Hin|Hnin].
      * rewrite decide_True by (by right).
        by rewrite <- Permutation_middle, IHls.
      * rewrite decide_False; [done|].
        by intros [?|?]%elem_of_cons.
Qed.

(** ** Ordering of the tree *)

(** C1. Whenever [locationListToTree] returns a tree, its file nodes are in
    strictly ascending ordinal order of file name, the file name of a node
    being the base name of the paths of its locations, and in each node the
    locations are in ascending order of start position, line first and
    character second.  ([locationListToTree_returns] tells when it returns.) *)
Theorem locationListToTree_ordered (ls : list Location) (t : list FileWithLocations) :
  locationListToTree ls = Normal t ->
  StronglySorted (fun a b => str_lt (file a) (file b)) t /\
  Forall (fun g => Forall (fun h => sourceFile h = file g) (locations g)) t /\
  Forall (fun g => StronglySorted start_le (locations g)) t.
Proof.
  intros (_ & ks & -> & Hks & _)%locationListToTree_inv. split_and!.
  - by apply (StronglySorted_fmap _ str_lt).
  - apply Forall_fmap, Forall_forall. intros k _. apply groupFor_sourceFile.
  - apply Forall_fmap, Forall_forall. intros k _. apply groupFor_sorted.
Qed.

Lemma locationListToTree_ordered_witness :
  StronglySorted (fun a b => str_lt (file a) (file b)) sampleTree /\
  Forall (fun g => Forall (fun h => sourceFile h = file g) (locations g)) sampleTree /\
  Forall (fun g => StronglySorted start_le (locations g)) sampleTree.
Proof. apply (locationListToTree_ordered sampleHits sampleTree). reflexivity. Defined.

(** ** Every hit is kept *)

(** C3. Whenever [locationListToTree] returns a tree, the locations of its
    nodes, taken together, are the input list up to order: nothing is dropped
    and a hit that occurs several times occurs as often in the tree.  The
    sizes of the nodes add up to the length of the input, no two nodes have
    the same file name, and a node only holds hits of the file it names, so
    that each hit lies in exactly one node. *)
Theorem locationListToTree_preserves (ls : list Location) (t : list FileWithLocations) :
  locationListToTree ls = Normal t ->
  concat (locations <$> t) ≡ₚ ls /\
  sum_list (length <$> (locations <$> t)) = length ls /\
  NoDup (file <$> t) /\
  Forall (fun g => Forall (fun h => sourceFile h = file g) (locations g)) t.
Proof.
  intros (_ & ks & -> & Hks & Hin)%locationListToTree_inv.
  assert (concat (locations <$> (groupFor ls <$> ks)) ≡ₚ ls) as Hperm.
  { rewrite concat_groups by (by apply StronglySorted_str_lt_NoDup).
    assert (forall l, l ∈ ls -> sourceFile l ∈ ks) as Hall.
    { intros l Hl. apply Hin. by exists l. }
    clear Hin. induction ls as [|l ls IH]; [done|].
    rewrite filter_cons, decide_True by (apply Hall; by left).
    f_equiv. apply IH. intros l' Hl'. apply Hall. by right. }
  split_and!.
  - done.
  - rewrite <- (Permutation_length Hperm). clear.
    induction (locations <$> (groupFor ls <$> ks)) as [|x xs IH]; [done|].
    simpl. rewrite length_app. by rewrite <- IH.
  - rewrite <- list_fmap_compose.
    rewrite (list_fmap_ext (file ∘ groupFor ls) id ks) by done.
    rewrite list_fmap_id. by apply StronglySorted_str_lt_NoDup.
  - apply Forall_fmap, Forall_forall. intros k _. apply groupFor_sourceFile.
Qed.

Lemma locationListToTree_preserves_witness :
  concat (locations <$> sampleTree) ≡ₚ sampleHits /\
  sum_list (length <$> (locations <$> sampleTree)) = length sampleHits /\
  NoDup (file <$> sampleTree) /\
  Forall (fun g => Forall (fun h => sourceFile h = file g) (locations g)) sampleTree.
Proof. apply (locationListToTree_preserves sampleHits sampleTree). reflexivity. Defined.

(** ** One node per file name *)

(** C7. Whenever [locationListToTree] returns a tree, two hits of the input
    whose paths have the same base name, whatever their directories, lie in
    one and the same node, the only node of the tree with that name. *)
Theorem locationListToTree_basename_only
    (ls : list Location) (t : list FileWithLocations) (h1 h2 : Location) :
  locationListToTree ls = Normal t ->
  h1 ∈ ls -> h2 ∈ ls -> sourceFile h1 = sourceFile h2 ->
  exists g, g ∈ t /\ file g = sourceFile h1 /\
    h1 ∈ locations g /\ h2 ∈ locations g /\
    (forall g', g' ∈ t ->
       file g' = file g \/ h1 ∈ locations g' \/ h2 ∈ locations g' -> g' = g).
Proof.
  intros (_ & ks & -> & Hks & Hin)%locationListToTree_inv Hh1 Hh2 Heq.
  exists (groupFor ls (sourceFile h1)).
  assert (forall h k, h ∈ locations (groupFor ls k) <-> sourceFile h = k /\ h ∈ ls)
    as Hmem.
  { intros h k. by rewrite groupFor_Permutation, list_elem_of_filter. }
  split_and!.
  - apply list_elem_of_fmap. exists (sourceFile h1). split; [done|].
    apply Hin. by exists h1.
  - done.
  - by apply Hmem.
  - by apply Hmem.
  - intros g' (k & -> & Hk)%list_elem_of_fmap.
    rewrite !Hmem. simpl. intros [->|[[<- _]|[<- _]]]; congruence.
Qed.

Lemma locationListToTree_basename_only_witness :
  exists g, g ∈ sampleTree /\ file g = "b.md" /\
    hit "/notes/b.md" 3 1 6 ∈ locations g /\
    hit "/archive/b.md" 1 7 12 ∈ locations g /\
    (forall g', g' ∈ sampleTree ->
       file g' = file g \/ hit "/notes/b.md" 3 1 6 ∈ locations g' \/
       hit "/archive/b.md" 1 7 12 ∈ locations g' -> g' = g).
Proof.
  apply (locationListToTree_basename_only sampleHits sampleTree
           (hit "/notes/b.md" 3 1 6) (hit "/archive/b.md" 1 7 12)).
  - reflexivity.
  - left.
  - do 2 right. left.
  - reflexivity.
Defined.

(** ** Order of the input *)

(** C2, as the claim states it, fails: two notes [a.md] in different
    directories, each with a link at the start of its first line, come out in
    the order in which they went in. *)
Lemma locationListToTree_permutation_counterexample :
  [hit "/x/a.md" 0 0 5; hit "/y/a.md" 0 0 5] ≡ₚ [hit "/y/a.md" 0 0 5; hit "/x/a.md" 0 0 5] /\
  locationListToTree [hit "/x/a.md" 0 0 5; hit "/y/a.md" 0 0 5] <>
  locationListToTree [hit "/y/a.md" 0 0 5; hit "/x/a.md" 0 0 5].
Proof. split; [apply Permutation_swap|]. vm_compute. discriminate. Qed.

(** C2, amended.  For two input lists that are permutations of each other,
    the outcomes of [locationListToTree] are equal as soon as hits of one
    file that start at the same position are the same hit, and in any case
    when the two lists are the same list.  Without that condition the two
    trees still have the same file names in the same order, and
    corresponding nodes hold the same hits, each node in ascending order of
    start position; the nodes can differ only in the order of hits that
    start at the same position, which in each tree is the order of those
    hits in its input list. *)
Theorem locationListToTree_permutation (ls1 ls2 : list Location) :
  ls1 ≡ₚ ls2 ->
  (tiesIdentical ls1 -> locationListToTree ls1 = locationListToTree ls2) /\
  (ls1 = ls2 -> locationListToTree ls1 = locationListToTree ls2) /\
  (forall t1 t2,
     locationListToTree ls1 = Normal t1 -> locationListToTree ls2 = Normal t2 ->
     file <$> t1 = file <$> t2 /\
     Forall2 (fun g1 g2 =>
                locations g1 ≡ₚ locations g2 /\
                StronglySorted start_le (locations g1) /\
                StronglySorted start_le (locations g2) /\
                forall p,
                  filter (fun h => start (range h) = p) (locations g1) =
                    filter (fun h => start (range h) = p /\ sourceFile h = file g1) ls1 /\
                  filter (fun h => start (range h) = p) (locations g2) =
                    filter (fun h => start (range h) = p /\ sourceFile h = file g2) ls2)
             t1 t2).
Proof.
  intros Hperm.
  assert (forall t1 t2,
    locationListToTree ls1 = Normal t1 -> locationListToTree ls2 = Normal t2 ->
    exists ks, t1 = groupFor ls1 <$> ks /\ t2 = groupFor ls2 <$> ks) as Hks.
  { intros t1 t2 (_ & ks1 & -> & Hks1 & Hin1)%locationListToTree_inv
                 (_ & ks2 & -> & Hks2 & Hin2)%locationListToTree_inv.
    exists ks1. split; [done|]. f_equal.
    apply (StronglySorted_unique str_lt); [done..|].
    apply NoDup_Permutation; [by apply StronglySorted_str_lt_NoDup..|].
    intros k. rewrite Hin1, Hin2. by setoid_rewrite Hperm. }
  assert (forall ls k p,
    filter (fun h => start (range h) = p) (locations (groupFor ls k)) =
    filter (fun h => start (range h) = p /\ sourceFile h = k) ls) as Hstable.
  { intros ls k p. simpl. rewrite Array_sort_stable.
    - by rewrite list_filter_filter.
    - intros x y Hx Hy. apply compareStart_le. unfold start_le, pos_le.
      rewrite Hx, Hy. lia. }
  split_and!.
  - intros Hties.
    destruct (decide (Forall safeName ls1)) as [Hsafe|Hunsafe].
    + destruct (proj2 (locationListToTree_returns ls1) Hsafe) as [t1 Ht1].
      rewrite Hperm in Hsafe.
      destruct (proj2 (locationListToTree_returns ls2) Hsafe) as [t2 Ht2].
      destruct (Hks t1 t2 Ht1 Ht2) as (ks & -> & ->).
      rewrite Ht1, Ht2. f_equal. apply list_fmap_ext. intros _ k _.
      unfold groupFor. f_equal.
      apply (StronglySorted_unique_strong (ordered compareStart)).
      * intros x1 x2 Hx1 Hx2 H12 H21.
        rewrite Array_sort_Permutation, list_elem_of_filter in Hx1, Hx2.
        destruct Hx1 as [Hk1 Hx1], Hx2 as [Hk2 Hx2].
        rewrite <- Hperm in Hx2.
        apply Hties; [done|done|congruence|].
        apply start_le_antisym; by apply compareStart_le.
      * apply Array_sort_sorted;
          [apply ordered_compareStart_connex|apply ordered_compareStart_trans].
      * apply Array_sort_sorted;
          [apply ordered_compareStart_connex|apply ordered_compareStart_trans].
      * by rewrite !Array_sort_Permutation, Hperm.
    + apply not_Forall_Exists in Hunsafe; [|apply _].
      rewrite (locationListToTree_Throw ls1 Hunsafe).
      rewrite Hperm in Hunsafe.
      by rewrite (locationListToTree_Throw ls2 Hunsafe).
  - by intros ->.
  - intros t1 t2 Ht1 Ht2. destruct (Hks t1 t2 Ht1 Ht2) as (ks & -> & ->).
    split.
    + rewrite <- !list_fmap_compose. by apply list_fmap_ext.
    + apply Forall2_fmap, Forall_Forall2_diag, Forall_forall. intros k _.
      split_and!.
      * by rewrite !groupFor_Permutation, Hperm.
      * apply groupFor_sorted.
      * apply groupFor_sorted.
      * intros p. split; apply Hstable.
Qed.

Lemma locationListToTree_permutation_witness :
  locationListToTree [hit "/x/a.md" 0 0 5; hit "/x/a.md" 0 9 14; hit "/x/b.md" 0 0 5] =
  locationListToTree [hit "/x/b.md" 0 0 5; hit "/x/a.md" 0 9 14; hit "/x/a.md" 0 0 5] /\
  (forall t1 t2,
     locationListToTree [hit "/x/a.md" 0 0 5; hit "/x/a.md" 0 9 14; hit "/x/b.md" 0 0 5] = Normal t1 ->
     locationListToTree [hit "/x/b.md" 0 0 5; hit "/x/a.md" 0 9 14; hit "/x/a.md" 0 0 5] = Normal t2 ->
     file <$> t1 = file <$> t2 /\
     Forall2 (fun g1 g2 =>
                locations g1 ≡ₚ locations g2 /\
                StronglySorted start_le (locations g1) /\
                StronglySorted start_le (locations g2) /\
                forall p,
                  filter (fun h => start (range h) = p) (locations g1) =
                    filter (fun h => start (range h) = p /\ sourceFile h = file g1)
                      [hit "/x/a.md" 0 0 5; hit "/x/a.md" 0 9 14; hit "/x/b.md" 0 0 5] /\
                  filter (fun h => start (range h) = p) (locations g2) =
                    filter (fun h => start (range h) = p /\ sourceFile h = file g2)
                      [hit "/x/b.md" 0 0 5; hit "/x/a.md" 0 9 14; hit "/x/a.md" 0 0 5])
             t1 t2).
Proof.
  destruct (locationListToTree_permutation
              [hit "/x/a.md" 0 0 5; hit "/x/a.md" 0 9 14; hit "/x/b.md" 0 0 5]
              [hit "/x/b.md" 0 0 5; hit "/x/a.md" 0 9 14; hit "/x/a.md" 0 0 5])
    as (Hsame & _ & Hgroups).
  - etrans; [apply Permutation_swap|].
    etrans; [apply perm_skip, Permutation_swap|].
    apply Permutation_swap.
  - split; [|exact Hgroups]. apply Hsame.
    intros h h' Hh Hh' Hfile Hstart.
    repeat (apply elem_of_cons in Hh as [->|Hh]);
      try (by apply elem_of_nil in Hh);
      repeat (apply elem_of_cons in Hh' as [->|Hh']);
      try (by apply elem_of_nil in Hh');
      first [reflexivity | discriminate Hstart | discriminate Hfile].
Defined.

(** ** [Promise.all] *)

Lemma allValues_Some {A} (vs : list (option A)) l :
  allValues vs = Some l <-> vs = Some <$> l.
Proof.
  revert l. induction vs as [|[v|] vs IH]; intros l; simpl.
  - split; [by intros [= <-]|]. by destruct l.
  - destruct (allValues vs) as [l'|] eqn:E.
    + split.
      * intros [= <-]. rewrite fmap_cons. f_equal. by apply IH.
      * destruct l as [|x l]; [done|]. rewrite fmap_cons. intros [= -> Hl].
        apply IH in Hl. congruence.
    + split; [done|]. destruct l as [|x l]; [done|].
      rewrite fmap_cons. intros [= -> Hl]. apply IH in Hl. congruence.
  - split; [done|]. by destruct l.
Qed.

Lemma all_start_inv {A} (ps : list (Completion A)) :
  all_inv ps [] (all_start (length ps)).
Proof.
  split; [by intros i ?%elem_of_nil|].
  destruct ps as [|c ps]; simpl.
  - split; [constructor|]. intros i. lia.
  - split_and!; try done.
    + by rewrite length_replicate.
    + by intros i ?%elem_of_nil.
    + intros [|i] a; simpl; [done|].
      by intros [? _]%lookup_replicate.
Qed.

Lemma all_deliver_inv {A} (ps : list (Completion A)) seen st i c :
  all_inv ps seen st -> ps !! i = Some c -> i ∉ seen ->
  all_inv ps (i :: seen) (all_deliver i c st).
Proof.
  intros [Hlt Hst] Hi Hnew.
  assert (i < length ps) as Hilt by (by eapply lookup_lt_Some).
  split.
  { intros j [->|?]%elem_of_cons; [done|by apply Hlt]. }
  unfold all_deliver. destruct (result st) as [|vs|e] eqn:Hres.
  - destruct Hst as (Hlen & Hnone & Hseen & Hvals).
    destruct c as [a|e]; simpl.
    + assert (forall j b, <[i:=Some a]> (values st) !! j = Some (Some b) ->
                (j = i /\ b = a) \/ (j <> i /\ values st !! j = Some (Some b))) as Hins.
      { intros j b. destruct (decide (i = j)) as [<-|Hne].
        - rewrite list_lookup_insert_eq by lia. intros [= ->]. by left.
        - rewrite list_lookup_insert_ne by done. right. by split. }
      destruct (allValues (<[i:=Some a]> (values st))) as [l|] eqn:Hall.
      * apply allValues_Some in Hall. split.
        -- apply Forall2_same_length_lookup_2.
           { rewrite <- Hlen, <- (length_insert (values st) i (Some a)), Hall.
             by rewrite length_fmap. }
           intros j c' v Hc' Hv.
           assert (<[i:=Some a]> (values st) !! j = Some (Some v)) as Hj.
           { by rewrite Hall, list_lookup_fmap, Hv. }
           apply Hins in Hj as [[-> ->]|[Hne Hj]]; [congruence|].
           destruct (Hseen j (Hvals j v Hj)) as (a' & Hpa & Hva). congruence.
        -- intros j Hj.
           assert (is_Some (l !! j)) as [v Hv].
           { apply lookup_lt_is_Some.
             rewrite <- (length_fmap Some), <- Hall, length_insert. lia. }
           assert (<[i:=Some a]> (values st) !! j = Some (Some v)) as Hj'.
           { by rewrite Hall, list_lookup_fmap, Hv. }
           apply Hins in Hj' as [[-> ->]|[Hne Hj']]; [by left|].
           right. by eapply Hvals.
      * split_and!.
        -- by rewrite length_insert.
        -- done.
        -- intros j [->|Hj]%elem_of_cons.
           ++ exists a. split; [done|]. apply list_lookup_insert_eq. lia.
           ++ destruct (Hseen j Hj) as (b & ? & ?). exists b. split; [done|].
              rewrite list_lookup_insert_ne; [done|]. by intros ->.
        -- intros j b [[-> ->]|[Hne Hj]]%Hins; [by left|].
           right. by eapply Hvals.
    + exists i. split; [by left|done].
  - rewrite Hres. destruct Hst as [? Hall]. split; [done|].
    intros j Hj. right. by apply Hall.
  - rewrite Hres. destruct Hst as (j & ? & ?). exists j. split; [by right|done].
Qed.

Lemma all_run_spec {A} (ps : list (Completion A)) sched seen st :
  all_inv ps seen st ->
  exists seen',
    all_inv ps seen' (all_run ps sched seen st).2 /\
    (forall i, i ∈ seen' <-> i ∈ seen \/ Settled i ∈ (all_run ps sched seen st).1) /\
    (forall i, i ∈ sched -> i < length ps -> i ∈ seen') /\
    (forall i, Settled i ∈ (all_run ps sched seen st).1 -> i ∈ sched) /\
    Forall isSettled (all_run ps sched seen st).1.
Proof.
  revert seen st. induction sched as [|i sched IH]; intros seen st Hinv; simpl.
  - exists seen. split_and!; [done| | | |constructor].
    + intros i. split; [by left|]. by intros [?|?%elem_of_nil].
    + by intros i ?%elem_of_nil.
    + by intros i ?%elem_of_nil.
  - destruct (ps !! i) as [c|] eqn:Hi.
    + case_bool_decide as Hseen.
      * destruct (IH seen st Hinv) as (seen' & Hinv' & Hin & Hsched & Hlog & Hall).
        exists seen'. split_and!; [done..| | |done].
        -- intros j [->|?]%elem_of_cons ?; [|by apply Hsched].
           apply Hin. by left.
        -- intros j Hj. right. by apply Hlog.
      * destruct (IH (i :: seen) _ (all_deliver_inv ps seen st i c Hinv Hi Hseen))
          as (seen' & Hinv' & Hin & Hsched & Hlog & Hall).
        exists seen'. simpl. split_and!; [done| | | |].
        -- intros j. rewrite Hin, elem_of_cons. split.
           ++ intros [[->|?]|?]; [right; by left|by left|right; by right].
           ++ intros [?|[[= ->]|?]%elem_of_cons]; [left; by right|left; by left|by right].
        -- intros j [->|?]%elem_of_cons ?; [|by apply Hsched].
           apply Hin. left. by left.
        -- intros j [[= ->]|?]%elem_of_cons; [by left|]. right. by apply Hlog.
        -- constructor; [by exists i|done].
    + destruct (IH seen st Hinv) as (seen' & Hinv' & Hin & Hsched & Hlog & Hall).
      exists seen'. split_and!; [done..| | |done].
      * intros j [->|?]%elem_of_cons Hj; [|by apply Hsched].
        apply lookup_ge_None_1 in Hi. lia.
      * intros j Hj. right. by apply Hlog.
Qed.

(** How [Promise.all] ends under a schedule. *)
Lemma Promise_all_spec {A} (ps : list (Completion A)) sched :
  (forall vs, (Promise_all ps sched).2 = Fulfilled vs ->
     Forall2 (fun c v => c = Normal v) ps vs /\
     forall i, i < length ps -> Settled i ∈ (Promise_all ps sched).1) /\
  (forall e, (Promise_all ps sched).2 = Rejected e ->
     exists i, Settled i ∈ (Promise_all ps sched).1 /\ ps !! i = Some (Throw e)) /\
  ((Promise_all ps sched).2 = Pending ->
     exists i, i < length ps /\ i ∉ sched) /\
  Forall isSettled (Promise_all ps sched).1.
Proof.
  unfold Promise_all. simpl.
  destruct (all_run_spec ps sched [] _ (all_start_inv ps))
    as (seen' & [Hlt Hinv] & Hin & Hsched & Hlog & Hall).
  assert (forall i, i ∈ seen' -> Settled i ∈ (all_run ps sched [] (all_start (length ps))).1)
    as Hin'.
  { intros i [?%elem_of_nil|?]%Hin; done. }
  split_and!; [| | |done].
  - intros vs Hvs. rewrite Hvs in Hinv. destruct Hinv as [? Hseen].
    split; [done|]. intros i Hi. by apply Hin', Hseen.
  - intros e He. rewrite He in Hinv. destruct Hinv as (i & ? & ?).
    exists i. split; [by apply Hin'|done].
  - intros Hp. rewrite Hp in Hinv. destruct Hinv as (Hlen & Hnone & Hseen & Hvals).
    destruct (decide (Forall (fun i => i ∈ sched) (seq 0 (length ps)))) as [Hcov|Hcov].
    + exfalso.
      assert (exists l, values (all_run ps sched [] (all_start (length ps))).2 = Some <$> l)
        as [l Hl]; [|by apply allValues_Some in Hl; congruence].
      generalize dependent (values (all_run ps sched [] (all_start (length ps))).2).
      intros vs. clear Hin Hin' Hlog Hall Hp. revert Hcov Hlt Hsched.
      generalize (length ps) as n. intros n Hcov Hlt Hsched Hlen Hnone Hseen Hvals.
      assert (forall i, i < n -> exists a, vs !! i = Some (Some a)) as Hfull.
      { intros i Hi. destruct (Hseen i) as (a & _ & ?); [|by exists a].
        apply Hsched; [|done]. eapply Forall_forall in Hcov; [done|].
        apply elem_of_seq. lia. }
      clear -Hlen Hfull. revert n Hlen Hfull.
      induction vs as [|v vs IH]; intros n Hlen Hfull; [by exists []|].
      simpl in Hlen. destruct n as [|n]; [done|].
      destruct (Hfull 0) as [a Ha]; [lia|]. simpl in Ha. injection Ha as ->.
      destruct (IH n) as [l ->]; [lia| |by exists (a :: l)].
      intros i Hi. apply (Hfull (S i)). lia.
    + apply not_Forall_Exists in Hcov; [|apply _].
      apply Exists_exists in Hcov as (i & Hi%elem_of_seq & Hnot).
      exists i. split; [lia|done].
Qed.

(** ** Strings *)

Lemma length_list_ascii_of_string (s : string) :
  length (list_ascii_of_string s) = String.length s.
Proof. induction s as [|c s IH]; simpl; [done|by rewrite IH]. Qed.

Lemma substring_take_drop (n m : nat) (s : string) :
  list_ascii_of_string (substring n m s) = take m (drop n (list_ascii_of_string s)).
Proof.
  revert n m.
  induction s as [|c s IH]; intros [|n] [|m]; simpl; rewrite ?IH; done.
Qed.

Lemma substr_drop (str : string) (s : Z) :
  (0 <= s)%Z ->
  list_ascii_of_string (substr str s) = drop (Z.to_nat s) (list_ascii_of_string str).
Proof.
  intros Hs. unfold substr.
  destruct (Z.ltb_spec s 0) as [?|_]; [lia|].
  rewrite substring_take_drop.
  pose proof (length_list_ascii_of_string str) as Hlen.
  rewrite take_ge by (rewrite length_drop; lia).
  destruct (Z.le_ge_cases s (Z.of_nat (String.length str))) as [Hle|Hge].
  - by rewrite Z.min_l.
  - rewrite Z.min_r by done. rewrite Nat2Z.id.
    by rewrite !drop_ge by lia.
Qed.

Lemma split_lines_oneLine (s : string) : Forall oneLine (split_lines s).
Proof.
  assert (forall c ln, c <> "010"%char -> oneLine ln -> oneLine (String c ln)) as Hcons.
  { intros c ln Hc Hln. unfold oneLine. simpl. by intros [?|?]%elem_of_cons. }
  assert (oneLine "") as Hnil by apply not_elem_of_nil.
  assert (forall c lns, c <> "010"%char -> Forall oneLine lns ->
            Forall oneLine match lns with
                           | ln :: lns => String c ln :: lns
                           | [] => [String c ""]
                           end) as Hkeep.
  { intros c [|ln lns] Hc Hlns.
    - repeat constructor. by apply Hcons.
    - inversion_clear Hlns. constructor; [by apply Hcons|done]. }
  remember (String.length s) as n eqn:Hn. revert s Hn.
  induction (lt_wf n) as [n _ IH]. intros [|c s] Hn; simpl.
  - by repeat constructor.
  - simpl in Hn. destruct (Ascii.eqb_spec c "010"%char) as [->|Hc].
    + constructor; [done|]. eapply IH; [|done]. lia.
    + destruct s as [|c' s'].
      * apply Hkeep; [done|]. by repeat constructor.
      * destruct (Ascii.eqb c "013" && Ascii.eqb c' "010").
        -- constructor; [done|]. eapply IH; [|done]. simpl in Hn. lia.
        -- apply Hkeep; [done|]. eapply IH; [|done]. lia.
Qed.

(** ** The preview of a hit *)

Lemma new_location label cs locs loc filename fileContents :
  BacklinkItem.new label cs locs (Some loc) filename fileContents =
  match split_lines (default "" fileContents) !! line (start (range loc)) with
  | Some ln =>
      Normal
        {| BacklinkItem.label := label; BacklinkItem.collapsibleState := cs;
           BacklinkItem.locations := locs; BacklinkItem.location := Some loc;
           BacklinkItem.filename := default "" filename;
           BacklinkItem.command :=
             Some {| BacklinkItem.command_ := "vscode.open";
                     BacklinkItem.arguments :=
                       (uri loc, {| BacklinkItem.preview := true;
                                    BacklinkItem.selection := range loc |});
                     BacklinkItem.title := "Open File" |};
           BacklinkItem.tooltip :=
             join ": " (filterBoolean
               [Some (default "" filename);
                Some ("line " +:+ pretty (line (start (range loc))));
                Some (substr ln (BacklinkItem.previewStart (character (start (range loc)))))]);
           BacklinkItem.description :=
             substr ln (BacklinkItem.previewStart (character (start (range loc))));
           BacklinkItem.iconPath := BacklinkItem.countText locs |}
  | None => Throw (TypeError "substr")
  end.
Proof.
  unfold BacklinkItem.new.
  by destruct (split_lines (default "" fileContents) !! line (start (range loc))).
Qed.

(** The split against the text written as lines and line ends. *)
Lemma split_lines_cons (c : ascii) (s : string) :
  split_lines (String c s) =
  if Ascii.eqb c "010"%char then "" :: split_lines s
  else match s with
       | String c' s' =>
           if Ascii.eqb c "013"%char && Ascii.eqb c' "010"%char
           then "" :: split_lines s'
           else match split_lines s with
                | ln :: lns => String c ln :: lns
                | [] => [String c ""]
                end
       | EmptyString =>
           match split_lines s with
           | ln :: lns => String c ln :: lns
           | [] => [String c ""]
           end
       end.
Proof. by destruct s. Qed.

Lemma oneLine_cons (c : ascii) (s : string) :
  oneLine (String c s) <-> c <> "010"%char /\ oneLine s.
Proof.
  unfold oneLine. simpl. rewrite not_elem_of_cons. split.
  - intros [Hc Hs]. split; [congruence|done].
  - intros [Hc Hs]. split; [congruence|done].
Qed.

Lemma split_lines_unsplit (first : string) (rest : list (string * string)) :
  separated first rest -> split_lines (unsplit first rest) = first :: rest.*2.
Proof.
  revert first. induction rest as [|[sep ln] rest IHrest]; intros first.
  - intros [Hfirst _]. simpl.
    induction first as [|c f IH]; [done|].
    apply oneLine_cons in Hfirst as [Hc Hf].
    rewrite split_lines_cons, (proj2 (Ascii.eqb_neq _ _) Hc), (IH Hf).
    destruct f as [|c' f']; [done|].
    apply oneLine_cons in Hf as [Hc' _].
    by rewrite (proj2 (Ascii.eqb_neq _ _) Hc'), andb_false_r.
  - intros (Hfirst & Hsep & Hrest). specialize (IHrest ln Hrest).
    cbn [unsplit]. rewrite fmap_cons. cbn [snd].
    remember (unsplit ln rest) as tail eqn:Htail. clear Htail.
    induction first as [|c f IH].
    + destruct Hsep as [[-> _]| ->]; unfold LF, CRLF; simpl;
        change ("" +:+ tail) with tail; by rewrite IHrest.
    + apply oneLine_cons in Hfirst as [Hc Hf].
      assert ((sep = LF /\ ~ endsWithCR f) \/ sep = CRLF) as Hsep'.
      { destruct Hsep as [[-> Hcr]|?]; [|by right]. left. split; [done|].
        intros Hf'. apply Hcr. unfold endsWithCR in *. simpl.
        by destruct (list_ascii_of_string f). }
      change (String c f +:+ sep +:+ tail) with (String c (f +:+ sep +:+ tail)).
      rewrite split_lines_cons, (proj2 (Ascii.eqb_neq _ _) Hc), (IH Hf Hsep').
      destruct (f +:+ sep +:+ tail) as [|c' s'] eqn:Hs.
      { destruct f; [|done]. by destruct Hsep as [[-> _]| ->]; unfold LF, CRLF in Hs. }
      destruct (Ascii.eqb_spec c "013"%char) as [->|_]; [|done].
      destruct (Ascii.eqb_spec c' "010"%char) as [->|_]; [|done].
      exfalso. destruct f as [|x f'].
      * destruct Hsep as [[-> Hcr]| ->]; [by apply Hcr|]. by unfold CRLF in Hs.
      * simpl in Hs. injection Hs as -> _.
        by apply oneLine_cons in Hf as [? _].
Qed.

(** C4. Take a text written as lines and line ends, and a hit that starts
    at column [c] of line [L] of it.  The constructor returns an item whose
    description is line [L], and that line alone, from offset [s] to its end,
    where [s] is [c - 12], replaced by [0] when [c - 12 < 20].  Column 5
    gives offset 0 and column 40 gives offset 28. *)
Theorem preview_extraction
    (label : string) (cs : TreeItemCollapsibleState) (locs : option (list Location))
    (loc : Location) (filename fileContents : option string)
    (first : string) (rest : list (string * string)) (ln : string) :
  separated first rest ->
  default "" fileContents = unsplit first rest ->
  (first :: rest.*2) !! line (start (range loc)) = Some ln ->
  exists (item : BacklinkItem.t) (s : Z),
    BacklinkItem.new label cs locs (Some loc) filename fileContents = Normal item /\
    s = (if decide (Z.of_nat (character (start (range loc))) - 12 < 20)%Z
         then 0 else Z.of_nat (character (start (range loc))) - 12)%Z /\
    list_ascii_of_string (BacklinkItem.description item) =
      drop (Z.to_nat s) (list_ascii_of_string ln) /\
    oneLine ln /\
    (character (start (range loc)) = 5 -> s = 0%Z) /\
    (character (start (range loc)) = 40 -> s = 28%Z).
Proof.
  intros Hsep Htext Hln.
  rewrite new_location, Htext, (split_lines_unsplit first rest Hsep), Hln.
  eexists _, _. split; [done|]. split; [done|]. simpl.
  set (c := character (start (range loc))).
  assert (BacklinkItem.previewStart c =
          if decide (Z.of_nat c - 12 < 20)%Z then 0%Z else (Z.of_nat c - 12)%Z) as ->.
  { unfold BacklinkItem.previewStart.
    destruct (Z.ltb_spec (Z.of_nat c - 12) 20); [by rewrite decide_True|].
    rewrite decide_False; [done|lia]. }
  split_and!.
  - apply substr_drop. case_decide; lia.
  - pose proof (split_lines_oneLine (unsplit first rest)) as Hall.
    rewrite (split_lines_unsplit first rest Hsep) in Hall.
    eapply Forall_forall in Hall; [done|]. by eapply list_elem_of_lookup_2.
  - intros ->. done.
  - intros ->. done.
Qed.

Lemma preview_extraction_witness :
  exists (item : BacklinkItem.t) (s : Z),
    BacklinkItem.new "2:" None_ None (Some (hit "/notes/a.md" 1 40 45)) (Some "a.md")
      (Some sampleText) = Normal item /\
    s = 28%Z /\
    list_ascii_of_string (BacklinkItem.description item) =
      drop (Z.to_nat s)
        (list_ascii_of_string "A long line of text that leads up to a [[b]] link") /\
    oneLine "A long line of text that leads up to a [[b]] link" /\
    (40 = 5 -> s = 0%Z) /\ (40 = 40 -> s = 28%Z).
Proof.
  apply (preview_extraction "2:" None_ None (hit "/notes/a.md" 1 40 45) (Some "a.md")
           (Some sampleText) "# Notes"
           [ (CRLF, "A long line of text that leads up to a [[b]] link");
             (LF, "the end") ]
           "A long line of text that leads up to a [[b]] link").
  - assert (forall s, bool_decide (oneLine s) = true -> oneLine s) as Hone.
    { intros s. apply bool_decide_eq_true_1. }
    split; [by apply Hone|]. split; [by right|].
    split; [by apply Hone|]. split; [|by split; [apply Hone|]].
    left. split; [done|]. discriminate.
  - reflexivity.
  - reflexivity.
Defined.

(** The sample text, previewed at a hit on its second line. *)
Example preview_extraction_sample :
  BacklinkItem.description <$>
    (match BacklinkItem.new "2:" None_ None (Some (hit "/notes/a.md" 1 40 45))
             (Some "a.md") (Some sampleText) with
     | Normal item => Some item
     | Throw _ => None
     end) = Some "ds up to a [[b]] link".
Proof. reflexivity. Qed.

(** C10. The constructor, given a location, throws exactly when the start
    line of the location is not an index into the lines of the text: the line
    read is then [undefined], and [substr] is read on it.  It returns an item
    exactly when the start line is such an index.  A text that is absent or
    empty has the single line 0, so that every start line from 1 on throws. *)
Theorem preview_extraction_total
    (label : string) (cs : TreeItemCollapsibleState) (locs : option (list Location))
    (loc : Location) (filename fileContents : option string) :
  (BacklinkItem.new label cs locs (Some loc) filename fileContents
     = Throw (TypeError "substr") <->
   length (split_lines (default "" fileContents)) <= line (start (range loc))) /\
  ((exists item,
      BacklinkItem.new label cs locs (Some loc) filename fileContents = Normal item) <->
   line (start (range loc)) < length (split_lines (default "" fileContents))) /\
  (default "" fileContents = "" -> 1 <= line (start (range loc)) ->
   BacklinkItem.new label cs locs (Some loc) filename fileContents
     = Throw (TypeError "substr")).
Proof.
  rewrite new_location.
  destruct (split_lines (default "" fileContents) !! line (start (range loc)))
    as [ln|] eqn:Hln.
  - apply lookup_lt_Some in Hln. split_and!.
    + split; [done|lia].
    + split; [done|]. by eexists.
    + intros Hempty. rewrite Hempty in Hln. simpl in Hln. lia.
  - apply lookup_ge_None_1 in Hln. split_and!.
    + done.
    + split; [by intros [? ?]|lia].
    + done.
Qed.

(** ** The query *)

#[local] Arguments Promise_all : simpl never.
#[local] Arguments then_ : simpl never.

Lemma isTruthy_Some (s : string) : isTruthy (Some s) = true <-> s <> "".
Proof. destruct s; simpl; split; done. Qed.

(** The path of the active note, or nothing. *)
Lemma getChildren_no_editor this host sched element :
  activeTextEditor host = None ->
  getChildren this host sched element = ([], Fulfilled []).
Proof. intros Hnone. unfold getChildren. by rewrite Hnone. Qed.

(** C5. Without an active text editor the query is answered with the empty
    list and nothing is asked of the host: no search is started, no document
    is opened, no notice is shown.  Grouping the empty list gives the empty
    tree. *)
Theorem getChildren_no_active_note
    (this : BacklinksTreeDataProvider) (host : Host) (sched : list nat)
    (element : option BacklinkItem.t) :
  activeTextEditor host = None ->
  getChildren this host sched element = ([], Fulfilled []) /\
  locationListToTree [] = Normal [].
Proof. intros Hnone. split; [by apply getChildren_no_editor|done]. Qed.

Lemma getChildren_no_active_note_witness :
  getChildren (mkProvider (Some "/notes")) idleHost [0; 1] None = ([], Fulfilled []) /\
  locationListToTree [] = Normal [].
Proof.
  apply (getChildren_no_active_note (mkProvider (Some "/notes")) idleHost [0; 1] None).
  reflexivity.
Defined.

Lemma getChildren_no_root this host sched element ed :
  activeTextEditor host = Some ed ->
  fsPath (document_uri (document ed)) <> "" ->
  isTruthy (workspaceRoot this) = false ->
  getChildren this host sched element =
    ([ShowInformationMessage "No refs in empty workspace"], Fulfilled []).
Proof.
  intros Hed Hpath Hroot. unfold getChildren. rewrite Hed. simpl.
  destruct (fsPath (document_uri (document ed))); [done|]. simpl.
  by rewrite Hroot.
Qed.

(** C6. With an active note and no workspace root, the query is answered
    with the empty list, not with an error, and the one thing that happens
    is the notice [No refs in empty workspace]; the answer does not wait for
    the notice. *)
Theorem getChildren_no_workspace
    (this : BacklinksTreeDataProvider) (host : Host) (sched : list nat)
    (element : option BacklinkItem.t) (ed : TextEditor) :
  workspaceRoot this = None ->
  activeTextEditor host = Some ed ->
  fsPath (document_uri (document ed)) <> "" ->
  getChildren this host sched element =
    ([ShowInformationMessage "No refs in empty workspace"], Fulfilled []).
Proof.
  intros Hroot Hed Hpath. apply (getChildren_no_root this host sched element ed); [done..|].
  by rewrite Hroot.
Qed.

Lemma getChildren_no_workspace_witness :
  getChildren (mkProvider None) sampleHost [0; 1] None =
    ([ShowInformationMessage "No refs in empty workspace"], Fulfilled []).
Proof.
  apply (getChildren_no_workspace (mkProvider None) sampleHost [0; 1] None
           (mkTextEditor (mkTextDocument (mkUri "/notes/b.md") "root note"))).
  - reflexivity.
  - reflexivity.
  - discriminate.
Defined.

(** The events of a query that reaches the workspace. *)
Lemma then_log {A B} (p : list Event * Promise A)
    (onFulfilled : A -> list Event * Completion B) :
  exists tail, (then_ p onFulfilled).1 = p.1 ++ tail /\
    (tail = [] \/ exists a, p.2 = Fulfilled a /\ tail = (onFulfilled a).1).
Proof.
  unfold then_. destruct p as [log [|a|e]]; simpl.
  - exists []. by rewrite app_nil_r; split; [|left].
  - exists (onFulfilled a).1. split; [done|]. right. by exists a.
  - exists []. by rewrite app_nil_r; split; [|left].
Qed.

Lemma getChildren_notice_only this host sched element message :
  ShowInformationMessage message ∈ (getChildren this host sched element).1 ->
  isTruthy ((fun e => fsPath (document_uri (document e))) <$> activeTextEditor host) = true /\
  isTruthy (workspaceRoot this) = false.
Proof.
  unfold getChildren.
  destruct (isTruthy (_ <$> activeTextEditor host)) eqn:Hactive; simpl;
    [|by intros ?%elem_of_nil].
  destruct (isTruthy (workspaceRoot this)) eqn:Hroot; simpl; [|done].
  intros Hin. exfalso.
  assert (forall {A} (ps : list (Completion A)),
            ShowInformationMessage message ∉ (Promise_all ps sched).1) as Hall.
  { intros A ps Hmem.
    destruct (Promise_all_spec ps sched) as (_ & _ & _ & Hsettled).
    eapply Forall_forall in Hsettled; [|exact Hmem]. by destruct Hsettled. }
  destruct element as [element|].
  - destruct (BacklinkItem.locations element) as [locs|]; cbn [fst] in Hin.
    + apply elem_of_app in Hin as [Hin|Hin];
        [|by destruct (Hall _ (_ <$> locs) Hin)].
      by apply list_elem_of_fmap in Hin as (? & ? & ?).
    + by apply elem_of_nil in Hin.
  - match type of Hin with _ ∈ (then_ ?p ?k).1 =>
      destruct (then_log p k) as (tail & Hlog & Htail) end.
    rewrite Hlog in Hin. cbn [fst app] in Hin.
    apply elem_of_cons in Hin as [?|Hin]; [done|].
    apply elem_of_cons in Hin as [?|Hin]; [done|].
    apply elem_of_app in Hin as [Hin|Hin]; [by destruct (Hall _ [_; _] Hin)|].
    destruct Htail as [->|(arr & _ & ->)]; [by apply elem_of_nil in Hin|].
    destruct arr as [|arr0 [|arr1 arr]]; simpl in Hin;
      try by apply elem_of_nil in Hin.
    by apply list_elem_of_singleton in Hin.
Qed.

(** C9. The test for an active note comes first.  Without an active text
    editor the answer is the empty list and no notice is shown, whatever the
    workspace root is.  The notice is shown exactly when there is an active
    note and the workspace root is unset: [null], or the empty string, which
    [!this.workspaceRoot] does not tell from [null]. *)
Theorem getChildren_precedence
    (this : BacklinksTreeDataProvider) (host : Host) (sched : list nat)
    (element : option BacklinkItem.t) :
  (activeTextEditor host = None ->
   getChildren this host sched element = ([], Fulfilled [])) /\
  ((exists message,
      ShowInformationMessage message ∈ (getChildren this host sched element).1) <->
   (exists ed, activeTextEditor host = Some ed /\
               fsPath (document_uri (document ed)) <> "") /\
   (workspaceRoot this = None \/ workspaceRoot this = Some "")).
Proof.
  split; [apply getChildren_no_editor|]. split.
  - intros [message [Hactive Hroot]%getChildren_notice_only]. split.
    + destruct (activeTextEditor host) as [ed|]; [|done].
      exists ed. split; [done|]. by apply isTruthy_Some.
    + destruct (workspaceRoot this) as [[|? ?]|]; [by right|done|by left].
  - intros [(ed & Hed & Hpath) Hroot].
    exists "No refs in empty workspace".
    rewrite (getChildren_no_root this host sched element ed); [by left|done..|].
    by destruct Hroot as [-> | ->].
Qed.

(** C8. A query for the top level, with an active note and a workspace root,
    first starts both searches, for wiki links and then for hyperlinks.
    After that only the two promises settle, in the order the host chooses.
    The grouping is called at most once and last of all: when it is called,
    both promises have settled before it, both are fulfilled, and its
    argument is the result for wiki links followed by the result for
    hyperlinks; the answer of the query is what the grouping gives, turned
    into tree items.  When it is not called the query has no answer.  When
    both searches are fulfilled and the schedule lets both settle, the
    grouping is called. *)
Theorem getChildren_top_level
    (this : BacklinksTreeDataProvider) (host : Host) (sched : list nat)
    (ed : TextEditor) (root : string) :
  activeTextEditor host = Some ed ->
  fsPath (document_uri (document ed)) <> "" ->
  workspaceRoot this = Some root -> root <> "" ->
  exists settles grouping,
    (getChildren this host sched None).1 =
      [ SearchBacklinksFor (path.basename (fsPath (document_uri (document ed)))) WikiLink;
        SearchBacklinksFor (path.basename (fsPath (document_uri (document ed)))) Hyperlink ]
      ++ settles ++ grouping /\
    Forall isSettled settles /\
    ((grouping = [] /\
      forall items, (getChildren this host sched None).2 <> Fulfilled items) \/
     (exists arr0 arr1,
        searchBacklinksFor host (path.basename (fsPath (document_uri (document ed))))
          WikiLink = Normal arr0 /\
        searchBacklinksFor host (path.basename (fsPath (document_uri (document ed))))
          Hyperlink = Normal arr1 /\
        Settled 0 ∈ settles /\ Settled 1 ∈ settles /\
        grouping = [LocationListToTree (arr0 ++ arr1)] /\
        (getChildren this host sched None).2 =
          settle (filesWithLocations ← locationListToTree (arr0 ++ arr1);
                  mapC BacklinkItem.fromFileWithLocations filesWithLocations))) /\
    (0 ∈ sched -> 1 ∈ sched -> forall arr0 arr1,
       searchBacklinksFor host (path.basename (fsPath (document_uri (document ed))))
         WikiLink = Normal arr0 ->
       searchBacklinksFor host (path.basename (fsPath (document_uri (document ed))))
         Hyperlink = Normal arr1 ->
       grouping = [LocationListToTree (arr0 ++ arr1)]).
Proof.
  intros Hed Hpath Hroot Hroot'. unfold getChildren. rewrite Hed, Hroot.
  cbn [fmap option_fmap option_map].
  rewrite (proj2 (isTruthy_Some _) Hpath), (proj2 (isTruthy_Some _) Hroot').
  cbn [negb from_option id].
  set (name := path.basename (fsPath (document_uri (document ed)))).
  set (ps := [searchBacklinksFor host name WikiLink; searchBacklinksFor host name Hyperlink]).
  destruct (Promise_all_spec ps sched) as (Hful & Hrej & Hpend & Hsettled).
  exists (Promise_all ps sched).1.
  unfold then_. cbn [fst snd].
  destruct (Promise_all ps sched).2 as [|vs|e] eqn:Hres.
  - exists []. split_and!; [by rewrite app_nil_r|done|by left|].
    intros H0 H1. destruct (Hpend eq_refl) as (i & Hi & Hnot).
    simpl in Hi. destruct i as [|[|i]]; [done|done|lia].
  - destruct (Hful vs eq_refl) as [Hvs Hall].
    apply Forall2_cons_inv_l in Hvs as (arr0 & vs' & H0 & Hvs & ->).
    apply Forall2_cons_inv_l in Hvs as (arr1 & vs'' & H1 & Hvs & ->).
    apply Forall2_nil_inv_l in Hvs as ->.
    exists [LocationListToTree (arr0 ++ arr1)]. cbn [fst snd].
    split_and!; [done|done| |].
    + right. exists arr0, arr1. split_and!; [done|done| | |done|done].
      * apply Hall. simpl. lia.
      * apply Hall. simpl. lia.
    + intros _ _ arr0' arr1' H0' H1'.
      rewrite H0 in H0'. rewrite H1 in H1'.
      injection H0' as <-. by injection H1' as <-.
  - exists []. split_and!; [by rewrite app_nil_r|done|by left|].
    intros _ _ arr0 arr1 H0 H1. destruct (Hrej e eq_refl) as (i & _ & Hi).
    destruct i as [|[|i]]; simpl in Hi; [| |done].
    + rewrite H0 in Hi. by injection Hi.
    + rewrite H1 in Hi. by injection Hi.
Qed.

Lemma getChildren_top_level_witness :
  exists settles grouping,
    (getChildren (mkProvider (Some "/notes")) sampleHost [1; 0] None).1 =
      [ SearchBacklinksFor "b.md" WikiLink; SearchBacklinksFor "b.md" Hyperlink ]
      ++ settles ++ grouping /\
    Forall isSettled settles /\
    ((grouping = [] /\
      forall items,
        (getChildren (mkProvider (Some "/notes")) sampleHost [1; 0] None).2
          <> Fulfilled items) \/
     (exists arr0 arr1,
        searchBacklinksFor sampleHost "b.md" WikiLink = Normal arr0 /\
        searchBacklinksFor sampleHost "b.md" Hyperlink = Normal arr1 /\
        Settled 0 ∈ settles /\ Settled 1 ∈ settles /\
        grouping = [LocationListToTree (arr0 ++ arr1)] /\
        (getChildren (mkProvider (Some "/notes")) sampleHost [1; 0] None).2 =
          settle (filesWithLocations ← locationListToTree (arr0 ++ arr1);
                  mapC BacklinkItem.fromFileWithLocations filesWithLocations))) /\
    (0 ∈ [1; 0] -> 1 ∈ [1; 0] -> forall arr0 arr1,
       searchBacklinksFor sampleHost "b.md" WikiLink = Normal arr0 ->
       searchBacklinksFor sampleHost "b.md" Hyperlink = Normal arr1 ->
       grouping = [LocationListToTree (arr0 ++ arr1)]).
Proof.
  apply (getChildren_top_level (mkProvider (Some "/notes")) sampleHost [1; 0]
           (mkTextEditor (mkTextDocument (mkUri "/notes/b.md") "root note")) "/notes").
  - reflexivity.
  - discriminate.
  - reflexivity.
  - discriminate.
Defined.

(** The sample query, run: both searches, the promises settling hyperlinks
    first, one grouping, one node for [a.md] with both hits in order. *)
Example getChildren_sample :
  getChildren (mkProvider (Some "/notes")) sampleHost [1; 0] None =
    ([ SearchBacklinksFor "b.md" WikiLink; SearchBacklinksFor "b.md" Hyperlink;
       Settled 1; Settled 0;
       LocationListToTree [hit "/notes/a.md" 0 4 9; hit "/notes/a.md" 0 14 23] ],
     Fulfilled
       [ {| BacklinkItem.label := "a.md";
            BacklinkItem.collapsibleState := Expanded;
            BacklinkItem.locations :=
              Some [hit "/notes/a.md" 0 4 9; hit "/notes/a.md" 0 14 23];
            BacklinkItem.location := None;
            BacklinkItem.filename := "a.md";
            BacklinkItem.command := None;
            BacklinkItem.tooltip := "a.md: 2 References";
            BacklinkItem.description := "2 References";
            BacklinkItem.iconPath := "2 References" |} ]).
Proof. reflexivity. Qed.

(** * Further properties of the grouping *)

Lemma Array_sort_sorted_id {A} (comparefn : A -> A -> Z) (l : list A) :
  StronglySorted (ordered comparefn) l -> Array_sort comparefn l = l.
Proof.
  induction 1 as [|x l Hl IH Hx]; simpl; [done|]. rewrite IH.
  destruct l as [|y l]; simpl; [done|].
  apply Forall_cons in Hx as [Hxy _]. unfold ordered in Hxy.
  by rewrite (proj2 (Z.leb_le _ _) Hxy).
Qed.

Lemma filter_concat_groups (ls : list Location) (ks : list string) k :
  NoDup ks -> k ∈ ks ->
  filter (fun h => sourceFile h = k) (concat (locations <$> (groupFor ls <$> ks)))
  = locations (groupFor ls k).
Proof.
  assert (forall k', filter (fun h => sourceFile h = k) (locations (groupFor ls k'))
                     = if decide (k' = k) then locations (groupFor ls k') else []) as Hone.
  { intros k'. pose proof (groupFor_sourceFile ls k') as Hall.
    induction (locations (groupFor ls k')) as [|h hs IH]; [by case_decide|].
    apply Forall_cons in Hall as [Hh Hall]. rewrite filter_cons, (IH Hall).
    destruct (decide (k' = k)) as [->|Hne].
    - by rewrite decide_True.
    - rewrite decide_False; [done|congruence]. }
  induction 1 as [|k' ks Hk' Hnd IH]; intros Hin; [by apply elem_of_nil in Hin|].
  rewrite !fmap_cons. cbn [concat]. rewrite filter_app, Hone.
  destruct (decide (k' = k)) as [->|Hne].
  - assert (filter (fun h => sourceFile h = k)
              (concat (locations <$> (groupFor ls <$> ks))) = []) as ->;
      [|by rewrite app_nil_r].
    clear IH Hin Hnd. induction ks as [|k'' ks IH]; [done|].
    rewrite !fmap_cons. cbn [concat]. rewrite filter_app, Hone.
    apply not_elem_of_cons in Hk' as [Hne Hk'].
    rewrite decide_False by done. by apply IH.
  - apply elem_of_cons in Hin as [->|Hin]; [done|]. by rewrite IH.
Qed.

Lemma sorted_names_unique (ks1 ks2 : list string) :
  StronglySorted str_lt ks1 -> StronglySorted str_lt ks2 ->
  (forall k, k ∈ ks1 <-> k ∈ ks2) -> ks1 = ks2.
Proof.
  intros H1 H2 Hin. apply (StronglySorted_unique str_lt); [done..|].
  by apply NoDup_Permutation; [apply StronglySorted_str_lt_NoDup..|].
Qed.

(** X1. [locationListToTree] throws exactly when the base name of some
    location is the name of a member of [Object.prototype]; what it throws
    is the [TypeError] of reading [push] on [undefined], and nothing else. *)
Theorem locationListToTree_throws (ls : list Location) :
  (locationListToTree ls = Throw (TypeError "push") <->
   Exists (fun l => sourceFile l ∈ ObjectPrototype_names) ls) /\
  (forall e, locationListToTree ls = Throw e -> e = TypeError "push").
Proof.
  assert (Exists (fun l => sourceFile l ∈ ObjectPrototype_names) ls ->
          locationListToTree ls = Throw (TypeError "push")) as Hthrow.
  { intros Hex. apply locationListToTree_Throw.
    eapply Exists_impl; [exact Hex|]. intros l Hl Hsafe. by apply Hsafe. }
  assert (forall e, locationListToTree ls = Throw e ->
            Exists (fun l => sourceFile l ∈ ObjectPrototype_names) ls) as Hex.
  { intros e He.
    destruct (decide (Forall safeName ls)) as [Hsafe|Hunsafe].
    - destruct (locationListToTree_Normal ls Hsafe) as (ks & Hks & _). congruence.
    - apply not_Forall_Exists in Hunsafe; [|apply _].
      eapply Exists_impl; [exact Hunsafe|]. intros l Hl. simpl in Hl.
      by apply dec_stable. }
  split.
  - split; [by apply Hex|done].
  - intros e He. specialize (Hthrow (Hex e He)). congruence.
Qed.

(** X2. In a tree that [locationListToTree] returns no node is empty, the
    file names of the nodes are exactly the base names that occur in the
    input, and there are at most as many nodes as hits. *)
Theorem locationListToTree_nodes (ls : list Location) (t : list FileWithLocations) :
  locationListToTree ls = Normal t ->
  Forall (fun g => locations g <> []) t /\
  (forall k, k ∈ file <$> t <-> exists h, h ∈ ls /\ sourceFile h = k) /\
  length t <= length ls.
Proof.
  intros (_ & ks & -> & Hks & Hin)%locationListToTree_inv.
  assert (file <$> (groupFor ls <$> ks) = ks) as Hfiles.
  { rewrite <- list_fmap_compose.
    rewrite (list_fmap_ext (file ∘ groupFor ls) id ks) by done.
    by rewrite list_fmap_id. }
  split_and!.
  - apply Forall_fmap, Forall_forall. intros k (h & Hh & Hk)%Hin. simpl.
    intros Hnil. apply (f_equal length) in Hnil.
    rewrite (Permutation_length (Array_sort_Permutation _ _)) in Hnil.
    assert (h ∈ filter (fun l => sourceFile l = k) ls) as Hmem
      by (by apply list_elem_of_filter).
    destruct (filter _ ls); [by apply elem_of_nil in Hmem|done].
  - intros k. by rewrite Hfiles.
  - rewrite length_fmap, <- (length_fmap sourceFile ls).
    apply submseteq_length, NoDup_submseteq.
    + by apply StronglySorted_str_lt_NoDup.
    + intros k (h & Hh & <-)%Hin. apply list_elem_of_fmap. by exists h.
Qed.

Lemma locationListToTree_nodes_witness :
  Forall (fun g => locations g <> []) sampleTree /\
  (forall k, k ∈ file <$> sampleTree <-> exists h, h ∈ sampleHits /\ sourceFile h = k) /\
  length sampleTree <= length sampleHits.
Proof. apply (locationListToTree_nodes sampleHits sampleTree). reflexivity. Defined.

(** X3. Grouping is idempotent: the hits of a returned tree, read off node
    by node, are grouped into that same tree again. *)
Theorem locationListToTree_regroup (ls : list Location) (t : list FileWithLocations) :
  locationListToTree ls = Normal t ->
  locationListToTree (concat (locations <$> t)) = Normal t.
Proof.
  intros (Hsafe & ks & -> & Hks & Hin)%locationListToTree_inv.
  pose proof (StronglySorted_str_lt_NoDup ks Hks) as Hnd.
  set (ls' := concat (locations <$> (groupFor ls <$> ks))).
  assert (forall h, h ∈ ls' <-> h ∈ ls) as Hmem.
  { intros h. unfold ls'. rewrite concat_groups, list_elem_of_filter by done.
    split; [by intros [_ ?]|]. intros Hh. split; [|done]. apply Hin. by exists h. }
  assert (Forall safeName ls') as Hsafe'.
  { apply Forall_forall. intros h Hh%Hmem. by eapply Forall_forall in Hsafe. }
  destruct (locationListToTree_Normal ls' Hsafe') as (ks' & -> & Hks' & Hin').
  assert (ks' = ks) as ->.
  { apply sorted_names_unique; [done..|]. intros k. rewrite Hin, Hin'.
    by setoid_rewrite Hmem. }
  f_equal. apply list_fmap_ext. intros i k Hk%list_elem_of_lookup_2.
  unfold groupFor at 1. unfold ls'. rewrite filter_concat_groups by done.
  unfold groupFor. simpl. f_equal. apply Array_sort_sorted_id, Array_sort_sorted;
    [apply ordered_compareStart_connex|apply ordered_compareStart_trans].
Qed.

Lemma locationListToTree_regroup_witness :
  locationListToTree (concat (locations <$> sampleTree)) = Normal sampleTree.
Proof. apply (locationListToTree_regroup sampleHits sampleTree). reflexivity. Defined.

(** X4. The sort of a node is stable: in a returned tree the hits of a node
    that start at one and the same position stand in the order in which they
    stand in the input. *)
Theorem locationListToTree_stable
    (ls : list Location) (t : list FileWithLocations) (g : FileWithLocations)
    (p : Position) :
  locationListToTree ls = Normal t -> g ∈ t ->
  filter (fun h => start (range h) = p) (locations g) =
  filter (fun h => start (range h) = p /\ sourceFile h = file g) ls.
Proof.
  intros (_ & ks & -> & _ & _)%locationListToTree_inv
         (k & -> & _)%list_elem_of_fmap.
  simpl. rewrite Array_sort_stable.
  - by rewrite list_filter_filter.
  - intros x y Hx Hy. apply compareStart_le. unfold start_le, pos_le.
    rewrite Hx, Hy. lia.
Qed.

Lemma locationListToTree_stable_witness :
  filter (fun h => start (range h) = mkPosition 0 0)
    [hit "/y/a.md" 0 0 5; hit "/x/a.md" 0 0 5] =
  filter (fun h => start (range h) = mkPosition 0 0 /\ sourceFile h = "a.md")
    [hit "/y/a.md" 0 0 5; hit "/x/b.md" 0 0 5; hit "/x/a.md" 0 0 5].
Proof.
  apply (locationListToTree_stable
           [hit "/y/a.md" 0 0 5; hit "/x/b.md" 0 0 5; hit "/x/a.md" 0 0 5]
           [ {| file := "a.md"; locations := [hit "/y/a.md" 0 0 5; hit "/x/a.md" 0 0 5] |};
             {| file := "b.md"; locations := [hit "/x/b.md" 0 0 5] |} ]
           {| file := "a.md"; locations := [hit "/y/a.md" 0 0 5; hit "/x/a.md" 0 0 5] |}
           (mkPosition 0 0)).
  - reflexivity.
  - left.
Defined.

(** * Further properties of paths and previews *)

Lemma list_ascii_of_string_app (a b : string) :
  list_ascii_of_string (a +:+ b) = list_ascii_of_string a ++ list_ascii_of_string b.
Proof. induction a as [|c a IH]; simpl; [done|by rewrite IH]. Qed.

Lemma until_sep_app (l1 l2 : list ascii) :
  "/"%char ∉ l1 -> path.until_sep (l1 ++ "/"%char :: l2) = l1.
Proof.
  induction l1 as [|c l1 IH]; simpl; intros Hno; [done|].
  apply not_elem_of_cons in Hno as [Hc Hno]. unfold path.is_sep.
  rewrite (proj2 (Ascii.eqb_neq c "/") (fun H => Hc (eq_sym H))).
  by rewrite IH.
Qed.

Lemma skip_seps_head (c : ascii) (l : list ascii) :
  c <> "/"%char -> path.skip_seps (c :: l) = c :: l.
Proof.
  intros Hc. simpl. unfold path.is_sep.
  by rewrite (proj2 (Ascii.eqb_neq c "/") Hc).
Qed.

Lemma until_sep_no_sep (l : list ascii) : "/"%char ∉ path.until_sep l.
Proof.
  induction l as [|c l IH]; simpl; [apply not_elem_of_nil|].
  unfold path.is_sep. destruct (Ascii.eqb_spec c "/") as [->|Hc];
    [apply not_elem_of_nil|].
  apply not_elem_of_cons. split; [congruence|done].
Qed.

(** X5. [path.basename], as the grouping uses it: the result holds no
    separator; for a name that is not empty and holds no separator, the base
    name of [dir/name] is [name] whatever [dir] is, also with a separator at
    the end of the path. *)
Theorem basename_in_directory (dir name : string) :
  name <> "" -> "/"%char ∉ list_ascii_of_string name ->
  path.basename (dir +:+ "/" +:+ name) = name /\
  path.basename (dir +:+ "/" +:+ name +:+ "/") = name /\
  forall p, "/"%char ∉ list_ascii_of_string (path.basename p).
Proof.
  intros Hname Hno.
  assert (exists c l, rev (list_ascii_of_string name) = c :: l /\ c <> "/"%char)
    as (c & l & Hrev & Hc).
  { destruct (rev (list_ascii_of_string name)) as [|c l] eqn:E.
    - apply (f_equal (@rev _)) in E. rewrite rev_involutive in E. simpl in E.
      destruct name; [done|discriminate].
    - exists c, l. split; [done|]. intros ->. apply Hno.
      apply list_elem_of_In, in_rev, list_elem_of_In. rewrite E. by left. }
  assert ("/"%char ∉ rev (list_ascii_of_string name)) as Hno'.
  { intros Hin. apply Hno. by apply list_elem_of_In, in_rev, list_elem_of_In. }
  assert (forall rest,
            string_of_list_ascii
              (rev (path.until_sep
                      (path.skip_seps
                         (rev (list_ascii_of_string name) ++ "/"%char :: rest)))) = name)
    as Hcore.
  { intros rest. rewrite Hrev. rewrite <- app_comm_cons, skip_seps_head by done.
    rewrite app_comm_cons, <- Hrev, until_sep_app by done.
    by rewrite rev_involutive, string_of_list_ascii_of_string. }
  split_and!.
  - unfold path.basename. rewrite !list_ascii_of_string_app. simpl.
    rewrite rev_app_distr. simpl. rewrite <- app_assoc. simpl. apply Hcore.
  - unfold path.basename. rewrite !list_ascii_of_string_app. simpl.
    rewrite rev_app_distr. simpl. rewrite rev_app_distr. simpl.
    rewrite <- app_assoc. simpl. apply Hcore.
  - intros p. unfold path.basename.
    rewrite list_ascii_of_string_of_list_ascii.
    intros Hin. apply list_elem_of_In, in_rev, list_elem_of_In in Hin.
    by apply until_sep_no_sep in Hin.
Qed.

Lemma basename_in_directory_witness :
  path.basename ("/home/me/notes" +:+ "/" +:+ "b.md") = "b.md" /\
  path.basename ("/home/me/notes" +:+ "/" +:+ "b.md" +:+ "/") = "b.md" /\
  forall p, "/"%char ∉ list_ascii_of_string (path.basename p).
Proof.
  apply (basename_in_directory "/home/me/notes" "b.md").
  - discriminate.
  - simpl. intros Hin.
    repeat (apply elem_of_cons in Hin as [Hin|Hin]; [discriminate|]).
    by apply elem_of_nil in Hin.
Defined.

(** X6. The preview of a hit always shows the reference: the description of
    an item built for a location is an end piece of the line of the hit, the
    line from the start column of the hit on is an end piece of the
    description, and for a start column below 32 the description is the
    whole line. *)
Theorem preview_keeps_reference
    (label : string) (cs : TreeItemCollapsibleState) (locs : option (list Location))
    (loc : Location) (filename fileContents : option string) (item : BacklinkItem.t) :
  BacklinkItem.new label cs locs (Some loc) filename fileContents = Normal item ->
  exists ln,
    split_lines (default "" fileContents) !! line (start (range loc)) = Some ln /\
    list_ascii_of_string (BacklinkItem.description item)
      `suffix_of` list_ascii_of_string ln /\
    drop (character (start (range loc))) (list_ascii_of_string ln)
      `suffix_of` list_ascii_of_string (BacklinkItem.description item) /\
    (character (start (range loc)) < 32 -> BacklinkItem.description item = ln).
Proof.
  rewrite new_location.
  destruct (split_lines (default "" fileContents) !! line (start (range loc)))
    as [ln|]; [|done].
  intros [= <-]. exists ln. split; [done|]. simpl.
  set (c := character (start (range loc))).
  assert (exists s, s <= c /\ (c < 32 -> s = 0) /\
            BacklinkItem.previewStart c = Z.of_nat s) as (s & Hs & Hzero & ->).
  { unfold BacklinkItem.previewStart.
    destruct (Z.ltb_spec (Z.of_nat c - 12) 20).
    - exists 0. split_and!; [lia|done|done].
    - exists (c - 12). split_and!; lia. }
  rewrite substr_drop, Nat2Z.id by lia. split_and!.
  - apply suffix_drop.
  - replace c with (s + (c - s)) by lia. rewrite <- drop_drop. apply suffix_drop.
  - intros Hc. rewrite <- (string_of_list_ascii_of_string (substr ln (Z.of_nat s))).
    rewrite substr_drop, Nat2Z.id, (Hzero Hc) by lia. simpl.
    apply string_of_list_ascii_of_string.
Qed.

Lemma preview_keeps_reference_witness :
  exists ln,
    split_lines (default "" (Some "see [[b]] and [c](b.md)")) !! 0 = Some ln /\
    list_ascii_of_string (BacklinkItem.description sampleLeaf)
      `suffix_of` list_ascii_of_string ln /\
    drop 4 (list_ascii_of_string ln)
      `suffix_of` list_ascii_of_string (BacklinkItem.description sampleLeaf) /\
    (4 < 32 -> BacklinkItem.description sampleLeaf = ln).
Proof.
  apply (preview_keeps_reference "1:" None_ None (hit "/notes/a.md" 0 4 9)
           (Some "a.md") (Some "see [[b]] and [c](b.md)") sampleLeaf).
  reflexivity.
Defined.

(** * Further properties of the query *)

Lemma fromFileWithLocations_Normal (fwl : FileWithLocations) :
  BacklinkItem.fromFileWithLocations fwl =
  Normal
    {| BacklinkItem.label := file fwl;
       BacklinkItem.collapsibleState := Expanded;
       BacklinkItem.locations := Some (locations fwl);
       BacklinkItem.location := None;
       BacklinkItem.filename := file fwl;
       BacklinkItem.command := None;
       BacklinkItem.tooltip :=
         join ": " (filterBoolean
           [Some (file fwl); None; Some (BacklinkItem.countText (Some (locations fwl)))]);
       BacklinkItem.description := BacklinkItem.countText (Some (locations fwl));
       BacklinkItem.iconPath := BacklinkItem.countText (Some (locations fwl)) |}.
Proof. reflexivity. Qed.

Lemma mapC_Forall2 {A B} (f : A -> Completion B) (l : list A) (r : list B) :
  mapC f l = Normal r <-> Forall2 (fun x y => f x = Normal y) l r.
Proof.
  revert r. induction l as [|x l IH]; intros r; simpl.
  - split.
    + intros [= <-]. constructor.
    + by intros ->%Forall2_nil_inv_l.
  - destruct (f x) as [y|e] eqn:Hx; simpl.
    + destruct (mapC f l) as [ys|e] eqn:Hl; simpl.
      * split.
        -- intros [= <-]. constructor; [done|]. by apply IH.
        -- intros (y' & ys' & Hy & Hys & ->)%Forall2_cons_inv_l.
           apply IH in Hys. congruence.
      * split; [done|].
        intros (y' & ys' & Hy & Hys & ->)%Forall2_cons_inv_l.
        by apply IH in Hys.
    + split; [done|]. intros (y' & ys' & Hy & _)%Forall2_cons_inv_l. congruence.
Qed.

Lemma mapC_Throw {A B} (f : A -> Completion B) (l : list A) e :
  mapC f l = Throw e -> exists x, x ∈ l /\ f x = Throw e.
Proof.
  induction l as [|x l IH]; simpl; [done|].
  destruct (f x) as [y|e'] eqn:Hx; simpl.
  - destruct (mapC f l) as [ys|e'] eqn:Hl; simpl; [done|].
    intros [= ->]. destruct IH as (x' & ? & ?); [done|].
    exists x'. split; [by right|done].
  - intros [= ->]. exists x. split; [by left|done].
Qed.

(** The query once both tests have passed. *)
Lemma getChildren_ready this host sched element ed root :
  activeTextEditor host = Some ed ->
  fsPath (document_uri (document ed)) <> "" ->
  workspaceRoot this = Some root -> root <> "" ->
  getChildren this host sched element =
  match element with
  | None =>
      let name := path.basename (fsPath (document_uri (document ed))) in
      let all := Promise_all [ searchBacklinksFor host name WikiLink;
                               searchBacklinksFor host name Hyperlink ] sched in
      then_ ([SearchBacklinksFor name WikiLink; SearchBacklinksFor name Hyperlink]
               ++ all.1, all.2)
        (fun arr =>
           match arr with
           | arr0 :: arr1 :: _ =>
               ([LocationListToTree (arr0 ++ arr1)],
                filesWithLocations ← locationListToTree (arr0 ++ arr1);
                mapC BacklinkItem.fromFileWithLocations filesWithLocations)
           | _ => ([], Throw (TypeError "concat"))
           end)
  | Some element =>
      match BacklinkItem.locations element with
      | Some locs =>
          let all := Promise_all
                       ((fun l => fromLocation host l (Some (BacklinkItem.filename element)))
                          <$> locs) sched in
          (((fun l => OpenTextDocument (uri l)) <$> locs) ++ all.1, all.2)
      | None => ([], Fulfilled [])
      end
  end.
Proof.
  intros Hed Hpath Hroot Hroot'. unfold getChildren. rewrite Hed, Hroot.
  cbn [fmap option_fmap option_map].
  rewrite (proj2 (isTruthy_Some _) Hpath), (proj2 (isTruthy_Some _) Hroot').
  reflexivity.
Qed.

(** The two searches of a query for the top level, and how it ends. *)
Lemma getChildren_top_result this host sched ed root :
  activeTextEditor host = Some ed ->
  fsPath (document_uri (document ed)) <> "" ->
  workspaceRoot this = Some root -> root <> "" ->
  (getChildren this host sched None).2 =
  match (Promise_all
           [ searchBacklinksFor host (path.basename (fsPath (document_uri (document ed))))
               WikiLink;
             searchBacklinksFor host (path.basename (fsPath (document_uri (document ed))))
               Hyperlink ] sched).2 with
  | Fulfilled arr =>
      match arr with
      | arr0 :: arr1 :: _ =>
          settle (filesWithLocations ← locationListToTree (arr0 ++ arr1);
                  mapC BacklinkItem.fromFileWithLocations filesWithLocations)
      | _ => Rejected (TypeError "concat")
      end
  | Rejected e => Rejected e
  | Pending => Pending
  end.
Proof.
  intros Hed Hpath Hroot Hroot'.
  rewrite (getChildren_ready this host sched None ed root) by done.
  cbn zeta. unfold then_. cbn [fst snd].
  destruct (Promise_all _ sched).2 as [|[|arr0 [|arr1 arr]]|e]; done.
Qed.

(** X7. When a query for the top level is answered, the answer mirrors the
    tree of the hits of both searches: one item per node and in the order of
    the nodes, hence in strictly ascending order of label; each item is
    expanded, bears the file name as label, holds the locations of its node,
    has no location or command of its own, and is described by the number of
    its locations, with [Reference] in the singular for exactly one. *)
Theorem getChildren_top_level_items
    (this : BacklinksTreeDataProvider) (host : Host) (sched : list nat)
    (ed : TextEditor) (root : string) (items : list BacklinkItem.t) :
  activeTextEditor host = Some ed ->
  fsPath (document_uri (document ed)) <> "" ->
  workspaceRoot this = Some root -> root <> "" ->
  (getChildren this host sched None).2 = Fulfilled items ->
  exists arr0 arr1 t,
    searchBacklinksFor host (path.basename (fsPath (document_uri (document ed))))
      WikiLink = Normal arr0 /\
    searchBacklinksFor host (path.basename (fsPath (document_uri (document ed))))
      Hyperlink = Normal arr1 /\
    locationListToTree (arr0 ++ arr1) = Normal t /\
    Forall2 (fun g item =>
               BacklinkItem.label item = file g /\
               BacklinkItem.collapsibleState item = Expanded /\
               BacklinkItem.locations item = Some (locations g) /\
               BacklinkItem.location item = None /\
               BacklinkItem.command item = None /\
               BacklinkItem.filename item = file g /\
               BacklinkItem.description item =
                 pretty (length (locations g)) +:+ " " +:+
                 (if decide (length (locations g) = 1)
                  then "Reference" else "References")) t items /\
    StronglySorted str_lt (BacklinkItem.label <$> items).
Proof.
  intros Hed Hpath Hroot Hroot'.
  rewrite (getChildren_top_result this host sched ed root) by done.
  set (name := path.basename (fsPath (document_uri (document ed)))).
  destruct (Promise_all_spec
              [searchBacklinksFor host name WikiLink;
               searchBacklinksFor host name Hyperlink] sched) as (Hful & _).
  destruct (Promise_all _ sched).2 as [|arr|e]; [done| |done].
  destruct (Hful arr eq_refl) as [Harr _].
  apply Forall2_cons_inv_l in Harr as (arr0 & arr' & H0 & Harr & ->).
  apply Forall2_cons_inv_l in Harr as (arr1 & arr'' & H1 & Harr & ->).
  destruct (locationListToTree (arr0 ++ arr1)) as [t|e] eqn:Ht; [|done].
  cbn [mbind Completion_bind].
  destruct (mapC BacklinkItem.fromFileWithLocations t) as [items'|e] eqn:Hitems;
    [|done].
  intros [= <-]. apply mapC_Forall2 in Hitems.
  exists arr0, arr1, t. split_and!; [done..| |].
  - eapply Forall2_impl; [exact Hitems|]. intros g item Hg. cbv beta in Hg.
    rewrite fromFileWithLocations_Normal in Hg. injection Hg as <-. simpl.
    split_and!; try done.
    unfold BacklinkItem.countText. simpl. do 2 f_equal.
    destruct (decide (length (locations g) = 1)) as [->|Hne].
    + by rewrite bool_decide_eq_true_2.
    + rewrite bool_decide_eq_false_2; [done|]. by intros [= ?].
  - assert (BacklinkItem.label <$> items' = file <$> t) as ->.
    { clear -Hitems. induction Hitems as [|g item t items Hg _ IH]; [done|].
      rewrite !fmap_cons, IH. f_equal.
      rewrite fromFileWithLocations_Normal in Hg. by injection Hg as <-. }
    apply locationListToTree_inv in Ht as (_ & ks & -> & Hks & _).
    rewrite <- list_fmap_compose.
    rewrite (list_fmap_ext (file ∘ groupFor (arr0 ++ arr1)) id ks) by done.
    by rewrite list_fmap_id.
Qed.

Lemma getChildren_top_level_items_witness :
  exists arr0 arr1 t,
    searchBacklinksFor sampleHost "b.md" WikiLink = Normal arr0 /\
    searchBacklinksFor sampleHost "b.md" Hyperlink = Normal arr1 /\
    locationListToTree (arr0 ++ arr1) = Normal t /\
    Forall2 (fun g item =>
               BacklinkItem.label item = file g /\
               BacklinkItem.collapsibleState item = Expanded /\
               BacklinkItem.locations item = Some (locations g) /\
               BacklinkItem.location item = None /\
               BacklinkItem.command item = None /\
               BacklinkItem.filename item = file g /\
               BacklinkItem.description item =
                 pretty (length (locations g)) +:+ " " +:+
                 (if decide (length (locations g) = 1)
                  then "Reference" else "References")) t sampleItems /\
    StronglySorted str_lt (BacklinkItem.label <$> sampleItems).
Proof.
  apply (getChildren_top_level_items (mkProvider (Some "/notes")) sampleHost [1; 0]
           (mkTextEditor (mkTextDocument (mkUri "/notes/b.md") "root note")) "/notes"
           sampleItems).
  - reflexivity.
  - discriminate.
  - reflexivity.
  - discriminate.
  - reflexivity.
Defined.

Lemma locationListToTree_Throw_inv (ls : list Location) e :
  locationListToTree ls = Throw e ->
  e = TypeError "push" /\ Exists (fun l => sourceFile l ∈ ObjectPrototype_names) ls.
Proof.
  intros He. destruct (decide (Forall safeName ls)) as [Hsafe|Hunsafe].
  - destruct (locationListToTree_Normal ls Hsafe) as (ks & Hks & _). congruence.
  - apply not_Forall_Exists in Hunsafe; [|apply _].
    rewrite (locationListToTree_Throw ls Hunsafe) in He. split; [congruence|].
    eapply Exists_impl; [exact Hunsafe|]. intros l Hl. simpl in Hl.
    by apply dec_stable.
Qed.

(** X8. A query for the top level fails only for one of three reasons: the
    search for wiki links is rejected, the search for hyperlinks is rejected
    (the query is then rejected with that error), or both are fulfilled and
    the base name of a hit is the name of a member of [Object.prototype], when
    the grouping throws its [TypeError].  Building the items never fails.  The
    query stays without an answer only if one of the two promises never
    settles. *)
Theorem getChildren_top_level_failure
    (this : BacklinksTreeDataProvider) (host : Host) (sched : list nat)
    (ed : TextEditor) (root : string) :
  activeTextEditor host = Some ed ->
  fsPath (document_uri (document ed)) <> "" ->
  workspaceRoot this = Some root -> root <> "" ->
  (forall e, (getChildren this host sched None).2 = Rejected e ->
     searchBacklinksFor host (path.basename (fsPath (document_uri (document ed))))
       WikiLink = Throw e \/
     searchBacklinksFor host (path.basename (fsPath (document_uri (document ed))))
       Hyperlink = Throw e \/
     exists arr0 arr1,
       searchBacklinksFor host (path.basename (fsPath (document_uri (document ed))))
         WikiLink = Normal arr0 /\
       searchBacklinksFor host (path.basename (fsPath (document_uri (document ed))))
         Hyperlink = Normal arr1 /\
       e = TypeError "push" /\
       Exists (fun l => sourceFile l ∈ ObjectPrototype_names) (arr0 ++ arr1)) /\
  ((getChildren this host sched None).2 = Pending -> 0 ∉ sched \/ 1 ∉ sched).
Proof.
  intros Hed Hpath Hroot Hroot'.
  rewrite (getChildren_top_result this host sched ed root) by done.
  set (name := path.basename (fsPath (document_uri (document ed)))).
  destruct (Promise_all_spec
              [searchBacklinksFor host name WikiLink;
               searchBacklinksFor host name Hyperlink] sched)
    as (Hful & Hrej & Hpend & _).
  destruct (Promise_all _ sched).2 as [|arr|e'].
  - split; [done|]. intros _. destruct (Hpend eq_refl) as (i & Hi & Hnot).
    simpl in Hi. destruct i as [|[|i]]; [by left|by right|lia].
  - destruct (Hful arr eq_refl) as [Harr _].
    apply Forall2_cons_inv_l in Harr as (arr0 & arr' & H0 & Harr & ->).
    apply Forall2_cons_inv_l in Harr as (arr1 & arr'' & H1 & Harr & ->).
    split.
    + intros e. destruct (locationListToTree (arr0 ++ arr1)) as [t|e0] eqn:Ht;
        cbn [mbind Completion_bind].
      * destruct (mapC BacklinkItem.fromFileWithLocations t) as [items|e0] eqn:Hitems;
          [done|].
        apply mapC_Throw in Hitems as (g & _ & Hg).
        by rewrite fromFileWithLocations_Normal in Hg.
      * intros [= <-]. apply locationListToTree_Throw_inv in Ht as [-> Hex].
        right. right. by exists arr0, arr1.
    + destruct (locationListToTree (arr0 ++ arr1)) as [t|e0]; cbn [mbind Completion_bind];
        [|done].
      by destruct (mapC BacklinkItem.fromFileWithLocations t).
  - split; [|done]. intros e [= <-].
    destruct (Hrej e' eq_refl) as (i & _ & Hi).
    destruct i as [|[|i]]; simpl in Hi; [left|right; left|done]; congruence.
Qed.

Lemma getChildren_top_level_failure_witness :
  (forall e, (getChildren (mkProvider (Some "/notes")) sampleHost [1] None).2 = Rejected e ->
     searchBacklinksFor sampleHost "b.md" WikiLink = Throw e \/
     searchBacklinksFor sampleHost "b.md" Hyperlink = Throw e \/
     exists arr0 arr1,
       searchBacklinksFor sampleHost "b.md" WikiLink = Normal arr0 /\
       searchBacklinksFor sampleHost "b.md" Hyperlink = Normal arr1 /\
       e = TypeError "push" /\
       Exists (fun l => sourceFile l ∈ ObjectPrototype_names) (arr0 ++ arr1)) /\
  ((getChildren (mkProvider (Some "/notes")) sampleHost [1] None).2 = Pending ->
   0 ∉ [1] \/ 1 ∉ [1]).
Proof.
  apply (getChildren_top_level_failure (mkProvider (Some "/notes")) sampleHost [1]
           (mkTextEditor (mkTextDocument (mkUri "/notes/b.md") "root note")) "/notes").
  - reflexivity.
  - discriminate.
  - reflexivity.
  - discriminate.
Defined.

(** X9. A query for the top level succeeds whenever both searches are
    fulfilled, both promises settle, in whatever order, and no base name of a
    hit is the name of a member of [Object.prototype]: the answer has one
    item per node of the tree, and with no hit at all it is the empty list. *)
Theorem getChildren_top_level_answer
    (this : BacklinksTreeDataProvider) (host : Host) (sched : list nat)
    (ed : TextEditor) (root : string) (arr0 arr1 : list Location) :
  activeTextEditor host = Some ed ->
  fsPath (document_uri (document ed)) <> "" ->
  workspaceRoot this = Some root -> root <> "" ->
  searchBacklinksFor host (path.basename (fsPath (document_uri (document ed))))
    WikiLink = Normal arr0 ->
  searchBacklinksFor host (path.basename (fsPath (document_uri (document ed))))
    Hyperlink = Normal arr1 ->
  0 ∈ sched -> 1 ∈ sched ->
  Forall (fun l => sourceFile l ∉ ObjectPrototype_names) (arr0 ++ arr1) ->
  exists t items,
    locationListToTree (arr0 ++ arr1) = Normal t /\
    (getChildren this host sched None).2 = Fulfilled items /\
    length items = length t /\
    (arr0 ++ arr1 = [] -> items = []).
Proof.
  intros Hed Hpath Hroot Hroot' H0 H1 Hs0 Hs1 Hsafe.
  rewrite (getChildren_top_result this host sched ed root) by done.
  set (name := path.basename (fsPath (document_uri (document ed)))) in *.
  destruct (Promise_all_spec
              [searchBacklinksFor host name WikiLink;
               searchBacklinksFor host name Hyperlink] sched)
    as (Hful & Hrej & Hpend & _).
  destruct (Promise_all _ sched).2 as [|arr|e'].
  - destruct (Hpend eq_refl) as (i & Hi & Hnot).
    simpl in Hi. destruct i as [|[|i]]; [done|done|lia].
  - destruct (Hful arr eq_refl) as [Harr _].
    apply Forall2_cons_inv_l in Harr as (a0 & arr' & H0' & Harr & ->).
    apply Forall2_cons_inv_l in Harr as (a1 & arr'' & H1' & Harr & ->).
    rewrite H0 in H0'. rewrite H1 in H1'.
    injection H0' as <-. injection H1' as <-.
    destruct (locationListToTree_Normal (arr0 ++ arr1) Hsafe) as (ks & Ht & _).
    rewrite Ht. cbn [mbind Completion_bind].
    destruct (mapC BacklinkItem.fromFileWithLocations (groupFor (arr0 ++ arr1) <$> ks))
      as [items|e] eqn:Hitems.
    + exists (groupFor (arr0 ++ arr1) <$> ks), items.
      apply mapC_Forall2 in Hitems. split_and!; [done|done| |].
      * symmetry. by eapply Forall2_length.
      * intros Hnil. rewrite Hnil in Ht.
        change (locationListToTree []) with (@Normal (list FileWithLocations) []) in Ht.
        injection Ht as Hks. symmetry in Hks. apply fmap_nil_inv in Hks as ->.
        by apply Forall2_nil_inv_l in Hitems.
    + apply mapC_Throw in Hitems as (g & _ & Hg).
      by rewrite fromFileWithLocations_Normal in Hg.
  - destruct (Hrej e' eq_refl) as (i & _ & Hi).
    destruct i as [|[|i]]; simpl in Hi; [| |done].
    + rewrite H0 in Hi. by injection Hi.
    + rewrite H1 in Hi. by injection Hi.
Qed.

Lemma getChildren_top_level_answer_witness :
  exists t items,
    locationListToTree ([hit "/notes/a.md" 0 4 9] ++ [hit "/notes/a.md" 0 14 23]) = Normal t /\
    (getChildren (mkProvider (Some "/notes")) sampleHost [1; 0] None).2 = Fulfilled items /\
    length items = length t /\
    ([hit "/notes/a.md" 0 4 9] ++ [hit "/notes/a.md" 0 14 23] = [] -> items = []).
Proof.
  apply (getChildren_top_level_answer (mkProvider (Some "/notes")) sampleHost [1; 0]
           (mkTextEditor (mkTextDocument (mkUri "/notes/b.md") "root note")) "/notes"
           [hit "/notes/a.md" 0 4 9] [hit "/notes/a.md" 0 14 23]).
  - reflexivity.
  - discriminate.
  - reflexivity.
  - discriminate.
  - reflexivity.
  - reflexivity.
  - right. left.
  - left.
  - apply Forall_forall. intros l Hl.
    repeat (apply elem_of_cons in Hl as [->|Hl]); [| |by apply elem_of_nil in Hl];
      apply (bool_decide_unpack _); exact I.
Defined.

(** ** Expanding a node *)

Lemma fromLocation_cases (host : Host) (l : Location) (filename : option string) :
  fromLocation host l filename =
  match openTextDocument host (uri l) with
  | Normal doc =>
      BacklinkItem.new (pretty (line (start (range l)) + 1) +:+ ":") None_ None
        (Some l) filename (Some (getText doc))
  | Throw e => Throw e
  end.
Proof. unfold fromLocation. by destruct (openTextDocument host (uri l)). Qed.

(** X10. Expanding a file node, with an active note and a workspace root: a
    document is opened for each location of the node, once and in the order
    of the locations, before any of the promises settles.  An answer holds
    one item per location, in that order: a leaf whose label is the start
    line counted from 1, followed by a colon, which keeps the location and
    the file name of the node and previews the start line of the location in
    the text of its document.  The expansion is rejected as a whole, with
    the error of one location, if a document cannot be opened or does not
    reach the start line; it stays without an answer only if one of the
    promises never settles. *)
Theorem getChildren_expand
    (this : BacklinksTreeDataProvider) (host : Host) (sched : list nat)
    (ed : TextEditor) (root : string) (element : BacklinkItem.t)
    (locs : list Location) :
  activeTextEditor host = Some ed ->
  fsPath (document_uri (document ed)) <> "" ->
  workspaceRoot this = Some root -> root <> "" ->
  BacklinkItem.locations element = Some locs ->
  exists settles,
    (getChildren this host sched (Some element)).1 =
      ((fun l => OpenTextDocument (uri l)) <$> locs) ++ settles /\
    Forall isSettled settles /\
    (forall items, (getChildren this host sched (Some element)).2 = Fulfilled items ->
       Forall2 (fun l item =>
                  exists doc ln,
                    openTextDocument host (uri l) = Normal doc /\
                    split_lines (getText doc) !! line (start (range l)) = Some ln /\
                    BacklinkItem.label item = pretty (line (start (range l)) + 1) +:+ ":" /\
                    BacklinkItem.collapsibleState item = None_ /\
                    BacklinkItem.location item = Some l /\
                    BacklinkItem.locations item = None /\
                    BacklinkItem.filename item = BacklinkItem.filename element /\
                    BacklinkItem.description item =
                      substr ln (BacklinkItem.previewStart (character (start (range l)))))
               locs items) /\
    (forall e, (getChildren this host sched (Some element)).2 = Rejected e ->
       exists l, l ∈ locs /\
         (openTextDocument host (uri l) = Throw e \/
          exists doc, openTextDocument host (uri l) = Normal doc /\
                      e = TypeError "substr" /\
                      length (split_lines (getText doc)) <= line (start (range l)))) /\
    ((getChildren this host sched (Some element)).2 = Pending ->
       exists i, i < length locs /\ i ∉ sched).
Proof.
  intros Hed Hpath Hroot Hroot' Hlocs.
  rewrite (getChildren_ready this host sched (Some element) ed root) by done.
  rewrite Hlocs. cbn zeta. cbn [fst snd].
  set (ps := (fun l => fromLocation host l (Some (BacklinkItem.filename element))) <$> locs).
  destruct (Promise_all_spec ps sched) as (Hful & Hrej & Hpend & Hsettled).
  exists (Promise_all ps sched).1. split_and!; [done|done| | |].
  - intros items [Hitems _]%Hful. unfold ps in Hitems.
    apply Forall2_fmap_l in Hitems.
    eapply Forall2_impl; [exact Hitems|]. intros l item Hitem.
    unfold compose in Hitem. cbv beta in Hitem.
    rewrite fromLocation_cases in Hitem.
    destruct (openTextDocument host (uri l)) as [doc|e]; [|done].
    rewrite new_location in Hitem. simpl in Hitem.
    destruct (split_lines (getText doc) !! line (start (range l))) as [ln|] eqn:Hln;
      [|done].
    injection Hitem as <-. exists doc, ln. simpl. by split_and!.
  - intros e (i & _ & Hi)%Hrej. unfold ps in Hi.
    rewrite list_lookup_fmap in Hi.
    destruct (locs !! i) as [l|] eqn:Hl; [|done]. simpl in Hi.
    exists l. split; [by eapply list_elem_of_lookup_2|].
    rewrite fromLocation_cases in Hi.
    destruct (openTextDocument host (uri l)) as [doc|e']; [|left; congruence].
    right. exists doc. split; [done|].
    rewrite new_location in Hi. simpl in Hi.
    destruct (split_lines (getText doc) !! line (start (range l))) as [ln|] eqn:Hln;
      [done|].
    split; [congruence|]. by apply lookup_ge_None_1.
  - intros (i & Hi & Hnot)%Hpend. exists i. split; [|done].
    unfold ps in Hi. by rewrite length_fmap in Hi.
Qed.

Lemma getChildren_expand_witness :
  exists settles,
    (getChildren (mkProvider (Some "/notes")) sampleHost [0] (Some sampleNode)).1 =
      ((fun l => OpenTextDocument (uri l)) <$> [hit "/notes/a.md" 0 4 9]) ++ settles /\
    Forall isSettled settles /\
    (forall items,
       (getChildren (mkProvider (Some "/notes")) sampleHost [0] (Some sampleNode)).2
         = Fulfilled items ->
       Forall2 (fun l item =>
                  exists doc ln,
                    openTextDocument sampleHost (uri l) = Normal doc /\
                    split_lines (getText doc) !! line (start (range l)) = Some ln /\
                    BacklinkItem.label item = pretty (line (start (range l)) + 1) +:+ ":" /\
                    BacklinkItem.collapsibleState item = None_ /\
                    BacklinkItem.location item = Some l /\
                    BacklinkItem.locations item = None /\
                    BacklinkItem.filename item = BacklinkItem.filename sampleNode /\
                    BacklinkItem.description item =
                      substr ln (BacklinkItem.previewStart (character (start (range l)))))
               [hit "/notes/a.md" 0 4 9] items) /\
    (forall e,
       (getChildren (mkProvider (Some "/notes")) sampleHost [0] (Some sampleNode)).2
         = Rejected e ->
       exists l, l ∈ [hit "/notes/a.md" 0 4 9] /\
         (openTextDocument sampleHost (uri l) = Throw e \/
          exists doc, openTextDocument sampleHost (uri l) = Normal doc /\
                      e = TypeError "substr" /\
                      length (split_lines (getText doc)) <= line (start (range l)))) /\
    ((getChildren (mkProvider (Some "/notes")) sampleHost [0] (Some sampleNode)).2
       = Pending ->
     exists i, i < length [hit "/notes/a.md" 0 4 9] /\ i ∉ [0]).
Proof.
  apply (getChildren_expand (mkProvider (Some "/notes")) sampleHost [0]
           (mkTextEditor (mkTextDocument (mkUri "/notes/b.md") "root note")) "/notes"
           sampleNode [hit "/notes/a.md" 0 4 9]).
  - reflexivity.
  - discriminate.
  - reflexivity.
  - discriminate.
  - reflexivity.
Defined.

(** The sample node, expanded: one document opened, one leaf. *)
Example getChildren_expand_sample :
  getChildren (mkProvider (Some "/notes")) sampleHost [0] (Some sampleNode) =
    ([OpenTextDocument (mkUri "/notes/a.md"); Settled 0], Fulfilled [sampleLeaf]).
Proof. reflexivity. Qed.

(** X11. A leaf has no children: for an item that [fromLocation] has
    built, on whatever host, the query answers with the empty list, opens no
    document and starts no search; the one event there can be is the notice
    of a missing workspace root. *)
Theorem getChildren_leaf
    (this : BacklinksTreeDataProvider) (host host' : Host) (sched : list nat)
    (l : Location) (filename : option string) (item : BacklinkItem.t) :
  fromLocation host' l filename = Normal item ->
  (getChildren this host sched (Some item)).2 = Fulfilled [] /\
  Forall isNotice (getChildren this host sched (Some item)).1.
Proof.
  intros Hitem. rewrite fromLocation_cases in Hitem.
  destruct (openTextDocument host' (uri l)) as [doc|e]; [|done].
  rewrite new_location in Hitem.
  destruct (split_lines _ !! line (start (range l))) as [ln|]; [|done].
  injection Hitem as <-. unfold getChildren.
  destruct (isTruthy (_ <$> activeTextEditor host)); simpl; [|by split].
  destruct (isTruthy (workspaceRoot this)); simpl; [by split|].
  split; [done|]. by repeat constructor.
Qed.

Lemma getChildren_leaf_witness :
  (getChildren (mkProvider (Some "/notes")) sampleHost [0] (Some sampleLeaf)).2
    = Fulfilled [] /\
  Forall isNotice
    (getChildren (mkProvider (Some "/notes")) sampleHost [0] (Some sampleLeaf)).1.
Proof.
  apply (getChildren_leaf (mkProvider (Some "/notes")) sampleHost sampleHost [0]
           (hit "/notes/a.md" 0 4 9) (Some "a.md") sampleLeaf).
  reflexivity.
Defined.

(** X12. Expanding never scans the workspace again: whatever the element,
    a query for its children starts no search and calls no grouping. *)
Theorem getChildren_expand_no_search
    (this : BacklinksTreeDataProvider) (host : Host) (sched : list nat)
    (element : BacklinkItem.t) (ev : Event) :
  ev ∈ (getChildren this host sched (Some element)).1 ->
  (forall name refType, ev <> SearchBacklinksFor name refType) /\
  (forall locs, ev <> LocationListToTree locs).
Proof.
  unfold getChildren.
  destruct (isTruthy (_ <$> activeTextEditor host)); simpl;
    [|by intros ?%elem_of_nil].
  destruct (isTruthy (workspaceRoot this)); simpl;
    [|by intros ->%list_elem_of_singleton].
  destruct (BacklinkItem.locations element) as [locs|]; cbn [fst];
    [|by intros ?%elem_of_nil].
  intros [Hin|Hin]%elem_of_app.
  - by apply list_elem_of_fmap in Hin as (l & -> & _).
  - pose proof (Promise_all_spec
                  ((fun l => fromLocation host l (Some (BacklinkItem.filename element)))
                     <$> locs) sched) as (_ & _ & _ & Hsettled).
    eapply Forall_forall in Hsettled; [|exact Hin].
    by destruct Hsettled as [i ->].
Qed.

Lemma getChildren_expand_no_search_witness :
  (forall name refType, OpenTextDocument (mkUri "/notes/a.md")
                        <> SearchBacklinksFor name refType) /\
  (forall locs, OpenTextDocument (mkUri "/notes/a.md") <> LocationListToTree locs).
Proof.
  apply (getChildren_expand_no_search (mkProvider (Some "/notes")) sampleHost [0]
           sampleNode (OpenTextDocument (mkUri "/notes/a.md"))).
  left.
Defined.
